(** * AsyncUtils: Loop, unique loops, List, If and Thread

    A shallow embedding of [src/AsyncUtils.js] (and of the stand-alone
    Thread source next to it) together with the properties of its
    control-flow primitives.

    The host platform is modelled as far as the library uses it:
    - [setTimeout]/[clearTimeout]: a FIFO queue of pending callbacks,
      every callback of the library being registered without a delay;
    - [Promise]: a heap of single-assignment cells with their pending
      reactions, and a queue of reaction jobs (microtasks) that is
      drained before the next timer callback runs;
    - closures of the library are kept as data (a constructor per
      function expression of the source, holding what it captures);
    - functions supplied by the caller are functions over a state [U]
      of the caller's own; they are total (no exception escapes them). *)

From Stdlib Require Import ZArith String.
From stdpp Require Import gmap strings list.

Set Warnings "-register-all".

(** ** JavaScript values *)

Inductive value :=
| VUndefined
| VNull
| VBool (b : bool)
| VNum (n : Z)
| VStr (s : string)
| VObj (fields : list (string * value))
| VArr (items : list value).

(** ToBoolean, as used by [if(...)], [!!] and [||]. *)
Definition truthy (v : value) : bool :=
  match v with
  | VUndefined | VNull => false
  | VBool b => b
  | VNum n => negb (n =? 0)%Z
  | VStr s => match s with EmptyString => false | _ => true end
  | VObj _ | VArr _ => true
  end.

(** [x || d] on an optional string argument. *)
Definition or_default (x : option string) (d : string) : string :=
  match x with
  | Some (String c s) => String c s
  | _ => d
  end.

(** Property read [v.name]. *)
Fixpoint assoc (name : string) (fields : list (string * value)) : value :=
  match fields with
  | [] => VUndefined
  | (k, v) :: rest => if String.eqb k name then v else assoc name rest
  end.

Definition get_field (name : string) (v : value) : value :=
  match v with
  | VObj fields => assoc name fields
  | _ => VUndefined
  end.

(** ** Promise cells *)

Inductive outcome :=
| Fulfilled (v : value)
| Rejected (r : value).

Section Runtime.

Context {U : Type}.

(** What a handle does to its receiver (the running Loop). *)
Inductive this_call :=
| CallDone
| CallTerminate (type message : option string)
| CallCancel (message : option string)
| CallKill (message : option string).

(** Result of one call of a caller-supplied Loop handle. *)
Record handle_result := HandleResult {
  h_state : U;
  h_calls : list this_call;
  h_return : value
}.

(** The functions handed to [ListHandler.prototype.each]. *)
Inductive each_handle :=
| EachUser (f : value -> nat -> U -> U * list this_call)
| FindBody (condition : value -> nat -> U -> U * value) (frame : nat).

(** The functions handed to [new Loop]. [EachHandle] is the closure of
    [each]: it captures the list, the caller's handle and the mutable
    [index]. *)
Inductive loop_handle :=
| UserHandle (f : U -> handle_result)
| EachHandle (items : list value) (index : nat) (h : each_handle).

(** Result of a then/else handle of [If]: a plain value or a
    ForkPromiseProxy. *)
Inductive fork_return :=
| RetValue (v : value)
| RetProxy (x : nat).

(** Callbacks given to [setTimeout]. *)
Inductive task :=
| TWait (l : nat)
| TIfResolve (condition : U -> U * value) (p : nat).

(** Callbacks given to [promise.then]. *)
Inductive cont :=
| KFork (x : nat)
| KFindEnd (frame : nat).

Inductive reaction :=
| React (k : cont) (d : nat)
| Follow (d : nat).

Inductive job_ :=
| JRun (k : cont) (v : value) (d : nat)
| JSettle (d : nat) (o : outcome).

Record promise_cell := PromiseCell {
  p_state : option outcome;
  p_reactions : list reaction
}.

Record Loop := MkLoop {
  maxIterations : option Z;
  handle : loop_handle;
  job : option nat;
  promise : nat;
  iteration : Z
}.

Record ForkPromiseProxy := MkProxy {
  x_promise : nat;
  thenHandle : U -> U * fork_return;
  elseHandle : U -> U * fork_return;
  next : nat
}.

(** Variables shared by the two closures of [find]. *)
Record find_frame := FindFrame {
  resolved : bool;
  target : nat
}.

(** Calls of caller-supplied functions, in the order they happen. *)
Inductive event :=
| EvHandle (l : nat)
| EvItem (l : nat) (item : value) (index : nat)
| EvCondition
| EvThen (x : nat)
| EvElse (x : nat).

Record world := World {
  ustate : U;
  timers : list (nat * task);
  next_timer : nat;
  microtasks : list job_;
  promises : list promise_cell;
  loops : list Loop;
  loopMap : gmap string nat;
  proxies : list ForkPromiseProxy;
  frames : list find_frame;
  trace : list event
}.

Definition init (u : U) : world :=
  World u [] 1 [] [] [] ∅ [] [] [].

Definition set_ustate (u : U) (w : world) : world :=
  World u (timers w) (next_timer w) (microtasks w) (promises w) (loops w)
        (loopMap w) (proxies w) (frames w) (trace w).
Definition set_timers (ts : list (nat * task)) (w : world) : world :=
  World (ustate w) ts (next_timer w) (microtasks w) (promises w) (loops w)
        (loopMap w) (proxies w) (frames w) (trace w).
Definition set_next_timer (n : nat) (w : world) : world :=
  World (ustate w) (timers w) n (microtasks w) (promises w) (loops w)
        (loopMap w) (proxies w) (frames w) (trace w).
Definition set_microtasks (js : list job_) (w : world) : world :=
  World (ustate w) (timers w) (next_timer w) js (promises w) (loops w)
        (loopMap w) (proxies w) (frames w) (trace w).
Definition set_promises (ps : list promise_cell) (w : world) : world :=
  World (ustate w) (timers w) (next_timer w) (microtasks w) ps (loops w)
        (loopMap w) (proxies w) (frames w) (trace w).
Definition set_loops (ls : list Loop) (w : world) : world :=
  World (ustate w) (timers w) (next_timer w) (microtasks w) (promises w) ls
        (loopMap w) (proxies w) (frames w) (trace w).
Definition set_proxies (xs : list ForkPromiseProxy) (w : world) : world :=
  World (ustate w) (timers w) (next_timer w) (microtasks w) (promises w)
        (loops w) (loopMap w) xs (frames w) (trace w).
Definition set_frames (fs : list find_frame) (w : world) : world :=
  World (ustate w) (timers w) (next_timer w) (microtasks w) (promises w)
        (loops w) (loopMap w) (proxies w) fs (trace w).
Definition log (e : event) (w : world) : world :=
  World (ustate w) (timers w) (next_timer w) (microtasks w) (promises w)
        (loops w) (loopMap w) (proxies w) (frames w) (trace w ++ [e]).

(** ** Timers *)

(** [setTimeout(callback)]: the identifiers handed out are positive, so
    a stored identifier is truthy. *)
Definition setTimeout (tk : task) (w : world) : nat * world :=
  let t := next_timer w in
  (t, set_next_timer (S t) (set_timers (timers w ++ [(t, tk)]) w)).

(** [clearTimeout(id)]: an identifier that is not pending is ignored. *)
Definition clearTimeout (t : nat) (w : world) : world :=
  set_timers (filter (fun e => e.1 ≠ t) (timers w)) w.

(** ** Promises *)

(** [new Promise(executor)]: the executors of the library only keep
    [resolve] and [reject], that is the right to settle the new cell. *)
Definition new_Promise (w : world) : nat * world :=
  (length (promises w),
   set_promises (promises w ++ [PromiseCell None []]) w).

Definition job_of (o : outcome) (r : reaction) : job_ :=
  match r with
  | React k d =>
      match o with
      | Fulfilled v => JRun k v d
      | Rejected _ => JSettle d o
      end
  | Follow d => JSettle d o
  end.

(** Settling: the first settlement wins, later ones are ignored. *)
Definition settle (p : nat) (o : outcome) (w : world) : world :=
  match promises w !! p with
  | Some (PromiseCell None rs) =>
      set_microtasks (microtasks w ++ map (job_of o) rs)
        (set_promises (<[p := PromiseCell (Some o) []]> (promises w)) w)
  | _ => w
  end.

Definition state_of (p : nat) (w : world) : option outcome :=
  match promises w !! p with
  | Some c => p_state c
  | None => None
  end.

(** [p.then(callback)] with a fulfilment callback only; the result is
    the derived promise. *)
Definition then_ (p : nat) (k : cont) (w : world) : nat * world :=
  let '(d, w) := new_Promise w in
  match promises w !! p with
  | Some (PromiseCell None rs) =>
      (d, set_promises (<[p := PromiseCell None (rs ++ [React k d])]> (promises w)) w)
  | Some (PromiseCell (Some o) _) =>
      (d, set_microtasks (microtasks w ++ [job_of o (React k d)]) w)
  | None => (d, w)
  end.

(** Resolving a derived promise with what its callback returned: a
    plain value fulfils it, a promise is followed. *)
Definition resolve_with (d : nat) (r : value + nat) (w : world) : world :=
  match r with
  | inl v => settle d (Fulfilled v) w
  | inr q =>
      match promises w !! q with
      | Some (PromiseCell None rs) =>
          set_promises (<[q := PromiseCell None (rs ++ [Follow d])]> (promises w)) w
      | Some (PromiseCell (Some o) _) =>
          set_microtasks (microtasks w ++ [JSettle d o]) w
      | None => w
      end
  end.

(** ** Loop *)

Definition alter_loop (f : Loop -> Loop) (l : nat) (w : world) : world :=
  set_loops (alter f l (loops w)) w.

Definition set_job (j : option nat) (L : Loop) : Loop :=
  MkLoop (maxIterations L) (handle L) j (promise L) (iteration L).
Definition set_handle (h : loop_handle) (L : Loop) : Loop :=
  MkLoop (maxIterations L) h (job L) (promise L) (iteration L).
Definition set_iteration (i : Z) (L : Loop) : Loop :=
  MkLoop (maxIterations L) (handle L) (job L) (promise L) i.

(** [iterations || null]: an absent or zero bound is no bound. *)
Definition or_null (iterations : option Z) : option Z :=
  match iterations with
  | Some 0%Z => None
  | it => it
  end.

(** [new Loop(handle, iterations)] *)
Definition new_Loop (h : loop_handle) (iterations : option Z) (w : world)
  : nat * world :=
  let mx := or_null iterations in
  let '(p, w) := new_Promise w in
  (length (loops w), set_loops (loops w ++ [MkLoop mx h None p 1]) w).

(** [if(this.job) { clearTimeout(this.job); this.job = null; }] *)
Definition clear_job (l : nat) (w : world) : world :=
  match loops w !! l with
  | Some L =>
      match job L with
      | Some t => alter_loop (set_job None) l (clearTimeout t w)
      | None => w
      end
  | None => w
  end.

Definition deferred_settle (l : nat) (o : outcome) (w : world) : world :=
  match loops w !! l with
  | Some L => settle (promise L) o w
  | None => w
  end.

(** [Loop.prototype.done] *)
Definition done (l : nat) (w : world) : world :=
  deferred_settle l (Fulfilled VUndefined) (clear_job l w).

(** [Loop.prototype.terminate] *)
Definition terminate (l : nat) (type message : option string) (w : world)
  : world :=
  let w := clear_job l w in
  let type := or_default type "Terminate" in
  let message := or_default message "Unknown reason" in
  deferred_settle l (Rejected (VStr ("[" +:+ type +:+ "] " +:+ message))) w.

(** [Loop.prototype.cancel] *)
Definition cancel (l : nat) (message : option string) (w : world) : world :=
  terminate l (Some "Cancel") message w.

(** [Loop.prototype.kill] *)
Definition kill (l : nat) (message : option string) (w : world) : world :=
  terminate l (Some "Kill") message w.

Definition run_this_call (l : nat) (c : this_call) (w : world) : world :=
  match c with
  | CallDone => done l w
  | CallTerminate type message => terminate l type message w
  | CallCancel message => cancel l message w
  | CallKill message => kill l message w
  end.

Definition run_this_calls (l : nat) (cs : list this_call) (w : world)
  : world :=
  foldl (fun w c => run_this_call l c w) w cs.

Definition set_resolved (fr : nat) (w : world) : world :=
  set_frames (alter (fun f => FindFrame true (target f)) fr (frames w)) w.

(** The functions [each] is given, called as
    [handle.call(this, item, index)] with the Loop as receiver. *)
Definition call_each (l : nat) (h : each_handle) (item : value) (index : nat)
    (w : world) : world :=
  let w := log (EvItem l item index) w in
  match h with
  | EachUser f =>
      let '(u, cs) := f item index (ustate w) in
      run_this_calls l cs (set_ustate u w)
  | FindBody condition fr =>
      let '(u, c) := condition item index (ustate w) in
      let w := set_ustate u w in
      if truthy c then
        let w := set_resolved fr w in
        let w := match frames w !! fr with
                 | Some f =>
                     settle (target f)
                       (Fulfilled (VObj [("item", item);
                                         ("index", VNum (Z.of_nat index))])) w
                 | None => w
                 end in
        done l w
      else w
  end.

(** [this.handle.call(this)] *)
Definition call_handle (l : nat) (w : world) : value * world :=
  match loops w !! l with
  | None => (VUndefined, w)
  | Some L =>
      let w := log (EvHandle l) w in
      match handle L with
      | UserHandle f =>
          let r := f (ustate w) in
          (h_return r, run_this_calls l (h_calls r) (set_ustate (h_state r) w))
      | EachHandle items index h =>
          let item := default VUndefined (items !! index) in
          let w := call_each l h item index w in
          let index := S index in
          let w := alter_loop (set_handle (EachHandle items index h)) l w in
          (VBool (Z.of_nat (length items) - 1 <? Z.of_nat index)%Z, w)
      end
  end.

Definition max_reached (L : Loop) : bool :=
  match maxIterations L with
  | Some m => negb (m =? 0)%Z && (iteration L =? m)%Z
  | None => false
  end.

(** The callback [wait] of [Loop.prototype.start], bound to Loop [l]. *)
Definition wait (l : nat) (w : world) : world :=
  let '(r, w) := call_handle l w in
  if truthy r then done l w
  else
    match loops w !! l with
    | None => w
    | Some L =>
        if max_reached L then
          kill l (Some "maximum iterations reached.") w
        else
          let w := alter_loop (set_iteration (iteration L + 1)) l w in
          let '(t, w) := setTimeout (TWait l) w in
          alter_loop (set_job (Some t)) l w
    end.

(** [Loop.prototype.start]; the local [iteration] of the source is a
    field of the instance here, [start] being called once on it. *)
Definition start (l : nat) (w : world) : nat * world :=
  let w := alter_loop (set_iteration 1) l w in
  let '(t, w) := setTimeout (TWait l) w in
  let w := alter_loop (set_job (Some t)) l w in
  (match loops w !! l with Some L => promise L | None => 0 end, w).

(** [Loop.until]: the instance and its promise. *)
Definition until (h : loop_handle) (iterations : option Z) (w : world)
  : nat * nat * world :=
  let '(l, w) := new_Loop h iterations w in
  let '(p, w) := start l w in
  (l, p, w).


(** ** List *)

(** [ListHandler.prototype.each] *)
Definition each (items : list value) (h : each_handle) (w : world)
  : nat * nat * world :=
  until (EachHandle items 0 h) None w.

(** [ListHandler.prototype.find]: the promise returned, and the Loop
    that [each] started. *)
Definition find (items : list value)
    (condition : value -> nat -> U -> U * value) (w : world)
  : nat * nat * world :=
  let '(P, w) := new_Promise w in
  let fr := length (frames w) in
  let w := set_frames (frames w ++ [FindFrame false P]) w in
  let '(l, p, w) := each items (FindBody condition fr) w in
  let '(_, w) := then_ p (KFindEnd fr) w in
  (P, l, w).

(** ** If *)

(** [new ForkPromiseProxy(promise)]; both handles start as
    [function() {}]. *)
Definition new_ForkPromiseProxy (p : nat) (w : world) : nat * world :=
  let x := length (proxies w) in
  let noop := fun u : U => (u, RetValue VUndefined) in
  let '(d, w) := then_ p (KFork x) w in
  (x, set_proxies (proxies w ++ [MkProxy p noop noop d]) w).

(** [ForkPromiseProxy.prototype.then] *)
Definition fork_then (x : nat) (h : U -> U * fork_return) (w : world)
  : nat * world :=
  (x, set_proxies
        (alter (fun X => MkProxy (x_promise X) h (elseHandle X) (next X)) x
               (proxies w)) w).

(** [ForkPromiseProxy.prototype.else] *)
Definition fork_else (x : nat) (h : U -> U * fork_return) (w : world)
  : nat * world :=
  let w := set_proxies
             (alter (fun X => MkProxy (x_promise X) (thenHandle X) h (next X))
                    x (proxies w)) w in
  match proxies w !! x with
  | Some X => new_ForkPromiseProxy (next X) w
  | None => (x, w)
  end.

(** [If(condition)] *)
Definition If (condition : U -> U * value) (w : world) : nat * world :=
  let '(p, w) := new_Promise w in
  let '(_, w) := setTimeout (TIfResolve condition p) w in
  new_ForkPromiseProxy p w.

(** The callback of the constructor of ForkPromiseProxy, bound to
    proxy [x]; what it returns resolves the derived promise [next]. *)
Definition fork_callback (x : nat) (result : value) (w : world)
  : (value + nat) * world :=
  match proxies w !! x with
  | None => (inl VNull, w)
  | Some X =>
      let '(returns, w) :=
        match result with
        | VBool true =>
            let '(u, r) := thenHandle X (ustate w) in
            (r, set_ustate u (log (EvThen x) w))
        | VBool false =>
            let '(u, r) := elseHandle X (ustate w) in
            (r, set_ustate u (log (EvElse x) w))
        | _ => (RetValue VNull, w)
        end in
      match returns with
      | RetValue v => (inl v, w)
      | RetProxy y =>
          match proxies w !! y with
          | Some Y => (inr (x_promise Y), w)
          | None => (inl VUndefined, w)
          end
      end
  end.

(** The callback [find] attaches to the promise of [each]. *)
Definition find_callback (fr : nat) (w : world) : (value + nat) * world :=
  match frames w !! fr with
  | Some f =>
      (inl VUndefined,
       if resolved f then w else settle (target f) (Rejected VNull) w)
  | None => (inl VUndefined, w)
  end.

(** ** The event loop *)

Definition run_job (j : job_) (w : world) : world :=
  match j with
  | JSettle d o => settle d o w
  | JRun k v d =>
      let '(r, w) := match k with
                     | KFork x => fork_callback x v w
                     | KFindEnd fr => find_callback fr w
                     end in
      resolve_with d r w
  end.

Definition run_task (tk : task) (w : world) : world :=
  match tk with
  | TWait l => wait l w
  | TIfResolve condition p =>
      let '(u, v) := condition (ustate w) in
      settle p (Fulfilled v) (set_ustate u (log EvCondition w))
  end.

(** One turn: the oldest pending reaction job if there is one, else the
    oldest pending timer callback. *)
Definition step (w : world) : world :=
  match microtasks w with
  | j :: js => run_job j (set_microtasks js w)
  | [] =>
      match timers w with
      | (_, tk) :: ts => run_task tk (set_timers ts w)
      | [] => w
      end
  end.

Fixpoint run (n : nat) (w : world) : world :=
  match n with
  | O => w
  | S n => run n (step w)
  end.

(** Number of calls of the handle of Loop [l] so far. *)
Definition is_handle_call (l : nat) (e : event) : bool :=
  match e with
  | EvHandle l' => Nat.eqb l l'
  | _ => false
  end.

Definition invocations (l : nat) (w : world) : nat :=
  length (filter (fun e => is_handle_call l e = true) (trace w)).

End Runtime.

Arguments world : clear implicits.
Arguments Loop : clear implicits.
Arguments loop_handle : clear implicits.
Arguments each_handle : clear implicits.
Arguments handle_result : clear implicits.
Arguments task : clear implicits.
Arguments ForkPromiseProxy : clear implicits.

(** ** Thread

    The repository holds the class twice: inside [AsyncUtils.js] and as
    a source file of its own. The two differ in the worker template and
    in [exec]; [start] and [terminate] are the same text. *)

Module Thread.

Inductive source := AsyncUtils | Standalone.

(** The function run inside the worker: what it returns, or what it
    throws. *)
Definition thread_handle := list value -> value + value.

Record message := Message {
  type : string;
  data : value
}.

Record Worker := MkWorker {
  script : source * thread_handle;
  inbox : list message;
  running : bool;
  onmessage : bool
}.

Inductive error :=
| TypeError (what : string).

(** The fields of the Thread instance, and of the platform the object
    URLs that are live, the workers, the responses on their way to the
    main thread and the promise cells. *)
Record state := State {
  handle : source * thread_handle;
  url : option nat;
  worker : option nat;
  promise : option nat;
  deferred : option nat;
  urls : list nat;
  next_url : nat;
  workers : list Worker;
  outbox : list (nat * message);
  promises : list (option outcome)
}.

Inductive result :=
| Ok (st : state)
| Throw (e : error) (st : state).

(** [new Thread(handle)]: the worker program is [Template] with
    [THREAD_HANDLE] replaced by the text of [handle]. *)
Definition new_Thread (src : source) (h : thread_handle) : state :=
  State (src, h) None None None None [] 0 [] [] [].

Definition set_inbox (ms : list message) (W : Worker) : Worker :=
  MkWorker (script W) ms (running W) (onmessage W).
Definition set_running (b : bool) (W : Worker) : Worker :=
  MkWorker (script W) (inbox W) b (onmessage W).
Definition set_onmessage (b : bool) (W : Worker) : Worker :=
  MkWorker (script W) (inbox W) (running W) b.

Definition set_workers (ws : list Worker) (st : state) : state :=
  State (handle st) (url st) (worker st) (promise st) (deferred st)
        (urls st) (next_url st) ws (outbox st) (promises st).
Definition set_outbox (ms : list (nat * message)) (st : state) : state :=
  State (handle st) (url st) (worker st) (promise st) (deferred st)
        (urls st) (next_url st) (workers st) ms (promises st).
Definition set_promises (ps : list (option outcome)) (st : state) : state :=
  State (handle st) (url st) (worker st) (promise st) (deferred st)
        (urls st) (next_url st) (workers st) (outbox st) ps.

(** Settling a promise cell: only the first settlement counts. *)
Definition settle (p : nat) (o : outcome) (st : state) : state :=
  match promises st !! p with
  | Some None => set_promises (<[p := Some o]> (promises st)) st
  | _ => st
  end.

(** [worker.postMessage(msg)]; a terminated worker receives nothing. *)
Definition postMessage (k : nat) (m : message) (st : state) : state :=
  set_workers
    (alter (fun W => if running W then set_inbox (inbox W ++ [m]) W else W)
           k (workers st)) st.

(** [Thread.prototype.exec]. The stand-alone source sends
    [this.params], a property no Thread ever gets, in place of the
    argument [params]. *)
Definition exec (src : source) (params : option (list value)) (st : state)
  : result :=
  let params := default [] params in
  let p := length (promises st) in
  let st := State (handle st) (url st) (worker st) (Some p) (Some p)
                  (urls st) (next_url st) (workers st) (outbox st)
                  (promises st ++ [None]) in
  match worker st with
  | None => Throw (TypeError "this.worker is null") st
  | Some k =>
      let payload := match src with
                     | AsyncUtils => VArr params
                     | Standalone => VUndefined
                     end in
      let st := postMessage k (Message "exec" payload) st in
      Ok (set_workers (alter (set_onmessage true) k (workers st)) st)
  end.

(** [Thread.prototype.terminate] *)
Definition terminate (st : state) : result :=
  match worker st with
  | None => Throw (TypeError "this.worker is null") st
  | Some k =>
      let ws := alter (set_running false) k (workers st) in
      let us := match url st with
                | Some a => filter (fun b => b ≠ a) (urls st)
                | None => urls st
                end in
      let st := State (handle st) None None (promise st) (deferred st)
                      us (next_url st) ws (outbox st) (promises st) in
      match deferred st with
      | None => Throw (TypeError "this.deferred is null") st
      | Some p => Ok (settle p (Rejected (VStr "Terminated")) st)
      end
  end.

(** [Thread.prototype.start] *)
Definition start (st : state) : result :=
  let r := match worker st with
           | Some _ => terminate st
           | None => Ok st
           end in
  match r with
  | Throw e st => Throw e st
  | Ok st =>
      let a := next_url st in
      let k := length (workers st) in
      Ok (State (handle st) (Some a) (Some k) (promise st) (deferred st)
                (urls st ++ [a]) (S a)
                (workers st ++ [MkWorker (handle st) [] true false])
                (outbox st) (promises st))
  end.

(** [fn.apply(self, msg.data)]: an array gives the arguments, and
    [undefined] gives none. [exec] sends nothing else. *)
Definition apply_args (d : value) : list value :=
  match d with
  | VArr xs => xs
  | _ => []
  end.

(** [self.onmessage] of [Template], run inside worker [k] on message
    [m]. *)
Definition Template (W : Worker) (m : message) : option message :=
  if String.eqb (type m) "exec" then
    match (script W).2 (apply_args (data m)) with
    | inl r => Some (Message "result" r)
    | inr ex =>
        Some (Message "error"
                match (script W).1 with
                | AsyncUtils =>
                    VObj [("message", get_field "message" ex);
                          ("stack", get_field "stack" ex)]
                | Standalone => ex
                end)
    end
  else None.

(** Worker [k] handles the oldest message of its inbox. *)
Definition worker_step (k : nat) (st : state) : state :=
  match workers st !! k with
  | Some W =>
      match running W, inbox W with
      | true, m :: ms =>
          let st := set_workers (<[k := set_inbox ms W]> (workers st)) st in
          match Template W m with
          | Some r => set_outbox (outbox st ++ [(k, r)]) st
          | None => st
          end
      | _, _ => st
      end
  | None => st
  end.

(** The handler [exec] installs as [this.worker.onmessage]. *)
Definition on_response (m : message) (st : state) : result :=
  if String.eqb (type m) "result" then
    match deferred st with
    | Some p => Ok (settle p (Fulfilled (data m)) st)
    | None => Throw (TypeError "this.deferred is null") st
    end
  else if String.eqb (type m) "error" then
    match deferred st with
    | Some p => Ok (settle p (Rejected (data m)) st)
    | None => Throw (TypeError "this.deferred is null") st
    end
  else Ok st.

(** The main thread takes the oldest response; one from a worker that
    was terminated, or that has no handler, is dropped. *)
Definition main_step (st : state) : result :=
  match outbox st with
  | [] => Ok st
  | (k, m) :: rest =>
      let st := set_outbox rest st in
      match workers st !! k with
      | Some W =>
          if running W && onmessage W then on_response m st else Ok st
      | None => Ok st
      end
  end.

Definition state_of (p : option nat) (st : state) : option outcome :=
  match p with
  | Some p => mjoin (promises st !! p)
  | None => None
  end.

(** Sequencing of calls that may throw. *)
Definition bind (r : result) (f : state -> result) : result :=
  match r with
  | Ok st => f st
  | Throw e st => Throw e st
  end.

(** [new Thread(h).start()] then [exec(params)]. *)
Definition started_exec (src : source) (h : thread_handle)
    (params : option (list value)) : result :=
  bind (start (new_Thread src h)) (exec src params).


End Thread.




(** * Vocabulary of the statements *)

Section Vocabulary.

Context {U : Type}.
Implicit Types (w : world U) (f : U -> handle_result U) (A : nat -> Prop).

(** A caller's handle that is a plain predicate: it computes a result,
    possibly changing the caller's state, and calls no method of the
    Loop it runs in. *)
Definition predicate (g : U -> U * value) : loop_handle U :=
  UserHandle (fun u => HandleResult (g u).1 [] (g u).2).

(** The state of the caller after [j] calls of a function that takes
    it from one state to the next. *)
Fixpoint after (next : U -> U) (j : nat) (u : U) : U :=
  match j with
  | O => u
  | S j => after next j (next u)
  end.

Definition iter_state f : nat -> U -> U :=
  after (fun u => h_state (f u)).

(** Nothing is pending: the event loop has come to rest. *)
Definition quiescent w : Prop := timers w = [] ∧ microtasks w = [].

(** Loop [l] is running a caller-supplied handle [f], its promise [p]
    is pending and unobserved, and its next tick [t] is the only
    callback pending. *)
Definition live (l p t : nat) f (mx : option Z) (i : Z) w : Prop :=
  loops w !! l = Some (MkLoop mx (UserHandle f) (Some t) p i) ∧
  timers w = [(t, TWait l)] ∧
  microtasks w = [] ∧
  promises w !! p = Some (PromiseCell None []).

(** [frame A w w']: going from [w] to [w'] the registry is untouched,
    the only callbacks added are ticks of Loops in [A], settled
    promises keep their outcome, and only handles of Loops in [A] were
    called. *)
Definition frame A w w' : Prop :=
  loopMap w' = loopMap w ∧
  (forall e, e ∈ timers w' ->
     e ∈ timers w ∨ exists l, A l ∧ e.2 = TWait l) ∧
  (forall p o, state_of p w = Some o -> state_of p w' = Some o) ∧
  (forall l, ¬ A l -> invocations l w' = invocations l w).

(** Loop [l] has no tick pending. *)
Definition no_tick (l : nat) w : Prop :=
  forall t, (t, TWait l) ∉ timers w.

(** The settlement each method of a Loop asks for. *)
Definition outcome_of (c : this_call) : outcome :=
  match c with
  | CallDone => Fulfilled VUndefined
  | CallTerminate type message =>
      Rejected (VStr ("[" +:+ or_default type "Terminate" +:+ "] " +:+
                      or_default message "Unknown reason"))
  | CallCancel message =>
      Rejected (VStr ("[Cancel] " +:+ or_default message "Unknown reason"))
  | CallKill message =>
      Rejected (VStr ("[Kill] " +:+ or_default message "Unknown reason"))
  end.

(** [If(condition).then(hT).else(hE)]: the first proxy, the proxy the
    chain evaluates to, and the world after the three calls. *)
Definition If_then_else (condition : U -> U * value)
    (hT hE : U -> U * fork_return) (w : world U) : nat * nat * world U :=
  let '(x0, w) := If condition w in
  let '(x1, w) := fork_then x0 hT w in
  let '(x2, w) := fork_else x1 hE w in
  (x0, x2, w).



(** The world after [If(condition).then(hT).else(hE)] on a fresh
    program. *)
Definition chain_world (condition : U -> U * value)
    (hT hE : U -> U * fork_return) (u : U) : world U :=
  World u [(1, TIfResolve condition 0)] 2 []
        [PromiseCell None [React (KFork 0) 1];
         PromiseCell None [React (KFork 1) 2];
         PromiseCell None []]
        [] ∅
        [MkProxy 0 hT hE 1;
         MkProxy 1 (fun u => (u, RetValue VUndefined))
                   (fun u => (u, RetValue VUndefined)) 2]
        [] [].

(** The calls [each] is expected to make on [items], the first of
    them having index [i], and the state of the caller after them. *)
Fixpoint each_events (l : nat) (items : list value) (i : nat) : list event :=
  match items with
  | [] => []
  | x :: rest => EvHandle l :: EvItem l x i :: each_events l rest (S i)
  end.

Fixpoint each_state (g : value -> nat -> U -> U) (items : list value)
    (i : nat) (u : U) : U :=
  match items with
  | [] => u
  | x :: rest => each_state g rest (S i) (g x i u)
  end.

(** A handle for [each] that only works on the caller's state. *)
Definition visitor (g : value -> nat -> U -> U) : each_handle U :=
  EachUser (fun item index u => (g item index u, [])).

(** The Loop of [each] is about to visit index [j], and its tick is the
    only callback pending. *)
Definition each_live (l p t : nat) (items : list value) (j : nat)
    (h : each_handle U) (i : Z) w : Prop :=
  loops w !! l = Some (MkLoop None (EachHandle items j h) (Some t) p i) ∧
  timers w = [(t, TWait l)] ∧
  microtasks w = [] ∧
  promises w !! p = Some (PromiseCell None []).

(** What [wait] does once the handle has returned [r]. *)
Definition wait_rest (l : nat) (r : value) w : world U :=
  if truthy r then done l w
  else
    match loops w !! l with
    | None => w
    | Some L =>
        if max_reached L then
          kill l (Some "maximum iterations reached.") w
        else
          let w := alter_loop (set_iteration (iteration L + 1)) l w in
          let '(t, w) := setTimeout (TWait l) w in
          alter_loop (set_job (Some t)) l w
    end.

(** The first item, from index [i] on, for which [condition] returns
    a truthy value, the state of the caller being handed from one call
    to the next. *)
Fixpoint first_match (condition : value -> nat -> U -> U * value)
    (items : list value) (i : nat) (u : U) : option (value * nat) :=
  match items with
  | [] => None
  | x :: rest =>
      let '(u', v) := condition x i u in
      if truthy v then Some (x, i) else first_match condition rest (S i) u'
  end.

(** [{item: x, index: k}] *)
Definition found (x : value) (k : nat) : value :=
  VObj [("item", x); ("index", VNum (Z.of_nat k))].

(** The Loop of [find] is about to visit index [j], nothing has matched
    so far, and its tick is the only callback pending. *)
Definition find_live (l P p d fr t : nat) (items : list value) (j : nat)
    (condition : value -> nat -> U -> U * value) (i : Z) w : Prop :=
  loops w !! l =
    Some (MkLoop None (EachHandle items j (FindBody condition fr))
                 (Some t) p i) ∧
  timers w = [(t, TWait l)] ∧
  microtasks w = [] ∧
  P ≠ p ∧
  promises w !! P = Some (PromiseCell None []) ∧
  promises w !! p = Some (PromiseCell None [React (KFindEnd fr) d]) ∧
  frames w !! fr = Some (FindFrame false P).

End Vocabulary.


(** [x => x === 1] *)
Definition is_one (item : value) (index : nat) (u : unit) : unit * value :=
  (u, VBool match item with VNum 1 => true | _ => false end).

(** [() => true] *)
Definition always (item : value) (index : nat) (u : unit) : unit * value :=
  (u, VBool true).

(** Inputs at which the theorems are exercised. *)

(** [function() { calls++; return false; }] *)
Definition never_true (u : nat) : nat * value := (S u, VBool false).

(** [function() { calls++; return calls > 2; }] *)
Definition third_time (u : nat) : nat * value := (S u, VBool (2 <=? u)).

(** [() => true] and [() => 1] as conditions of [If]. *)
Definition yes (u : unit) : unit * value := (u, VBool true).
Definition one (u : unit) : unit * value := (u, VNum 1).

Definition returns (s : string) (u : unit) : unit * @fork_return :=
  (u, RetValue (VStr s)).

(** [function(item, index) { calls++; }] *)
Definition count_call (item : value) (index : nat) (u : nat) : nat := S u.

(** [x => x === 2], counting its calls. *)
Definition is_two (item : value) (index : nat) (u : nat) : nat * value :=
  (S u, VBool match item with VNum 2 => true | _ => false end).

(** ** More of Thread: its calls in any order, and [threaded] *)

Module ThreadCalls.
Import Thread.

(** What a program can do with one Thread, and what the platform does
    in between: a turn of worker [k], a response taken by the main
    thread. *)
Inductive call :=
| Start
| Exec (params : option (list value))
| Terminate
| WorkerTurn (k : nat)
| MainTurn.

Definition perform (src : source) (c : call) (st : state) : result :=
  match c with
  | Start => start st
  | Exec params => exec src params st
  | Terminate => terminate st
  | WorkerTurn k => Ok (worker_step k st)
  | MainTurn => main_step st
  end.

(** The state a call leaves, whether it returned or threw (a caller may
    catch what is thrown and go on using the Thread). *)
Definition state_after (r : result) : state :=
  match r with
  | Ok st => st
  | Throw _ st => st
  end.

Definition perform_all (src : source) (cs : list call) (st : state) : state :=
  foldl (fun st c => state_after (perform src c st)) st cs.

(** Nothing is left behind: the only live object URL is the one in
    [this.url], the only worker running is the one in [this.worker],
    and [this.url] and [this.worker] are set and nulled together. *)
Definition tidy (st : state) : Prop :=
  urls st = match url st with Some a => [a] | None => [] end ∧
  (worker st = None <-> url st = None) ∧
  (forall k W, workers st !! k = Some W -> running W = true ->
               worker st = Some k) ∧
  (forall k, worker st = Some k ->
             running <$> workers st !! k = Some true).



(** [function() { return arguments; }], as a list. *)
Definition echo : thread_handle := fun args => inl (VArr args).

End ThreadCalls.

(** ** More of Loop: handles that call methods of their Loop *)

Section LoopVocabulary.

Context {U : Type}.
Implicit Types (w : world U) (f : U -> handle_result U).

(** Loop [l] runs the caller's handle [f]; its next tick [t] is the
    only callback pending, and its promise [p], in state [s], has no
    reaction attached. *)
Definition ticking (l p t : nat) f (mx : option Z) (i : Z)
    (s : option outcome) w : Prop :=
  loops w !! l = Some (MkLoop mx (UserHandle f) (Some t) p i) ∧
  timers w = [(t, TWait l)] ∧
  microtasks w = [] ∧
  promises w !! p = Some (PromiseCell s []).

(** The tick of Loop [l] has fired and its handle is being called. *)
Definition inside (l p : nat) f (mx : option Z) (i : Z)
    (s : option outcome) w : Prop :=
  (exists j, loops w !! l = Some (MkLoop mx (UserHandle f) j p i)) ∧
  timers w = [] ∧
  microtasks w = [] ∧
  promises w !! p = Some (PromiseCell s []).

(** The state of a promise that was in state [s] once the methods [cs]
    have been called on its Loop: the first settlement stays. *)
Definition requested (s : option outcome) (cs : list this_call)
  : option outcome :=
  match s, cs with
  | Some o, _ => Some o
  | None, c :: _ => Some (outcome_of c)
  | None, [] => None
  end.

(** The settlement asked for by the first of the first [j] calls of
    [f] that calls a method of its Loop. *)
Fixpoint first_request f (j : nat) (u : U) : option outcome :=
  match j with
  | O => None
  | S j =>
      match h_calls (f u) with
      | c :: _ => Some (outcome_of c)
      | [] => first_request f j (h_state (f u))
      end
  end.

End LoopVocabulary.

(** [function() { calls++; this.done(); return false; }] *)
Definition done_and_go_on (u : nat) : handle_result nat :=
  HandleResult (S u) [CallDone] (VBool false).

(** [function() { calls++; if (calls === 2) this.cancel("enough");
                  return calls > 2; }] *)
Definition cancel_then_stop (u : nat) : handle_result nat :=
  HandleResult (S u)
    (if u =? 1 then [CallCancel (Some "enough")] else [])
    (VBool (2 <=? u)).

(** ** More of If: handles that return a proxy, and else-if chains *)

Section ForkVocabulary.

Context {U : Type}.

(** A then/else handle that returns a plain value. *)
Definition plain (h : U -> U * value) : U -> U * fork_return :=
  fun u => ((h u).1, RetValue (h u).2).

(** [function() {}] *)
Definition noop (u : U) : U * value := (u, VUndefined).

(** What a proxy with the handles [hT] and [hE] does with the result
    [v] of its promise: the state of the caller afterwards with the
    value its [next] is fulfilled with, and the call it makes. *)
Definition branch (hT hE : U -> U * value) (v : value) (u : U) : U * value :=
  match v with
  | VBool true => hT u
  | VBool false => hE u
  | _ => (u, VNull)
  end.

Definition branch_events (x : nat) (v : value) : list event :=
  match v with
  | VBool true => [EvThen x]
  | VBool false => [EvElse x]
  | _ => []
  end.

(** [var inner = If(c2).then(hA);
     If(c1).then(function() { return inner; })]:
    the outer proxy, the inner one and the world after the calls. *)
Definition If_returning_proxy (c1 c2 hA : U -> U * value) (w : world U)
  : nat * nat * world U :=
  let '(y, w) := If c2 w in
  let '(y, w) := fork_then y (plain hA) w in
  let '(x, w) := If c1 w in
  let '(_, w) := fork_then x (fun u => (u, RetProxy y)) w in
  (x, y, w).

(** The world after these calls on a fresh program. *)
Definition proxy_world (c1 c2 hA : U -> U * value) (u : U) : world U :=
  World u [(1, TIfResolve c2 0); (2, TIfResolve c1 2)] 3 []
        [PromiseCell None [React (KFork 0) 1];
         PromiseCell None [];
         PromiseCell None [React (KFork 1) 3];
         PromiseCell None []]
        [] ∅
        [MkProxy 0 (plain hA) (plain noop) 1;
         MkProxy 2 (fun u => (u, RetProxy 0)) (plain noop) 3]
        [] [].

(** [If(condition).then(hT).else(hE).then(h3).else(h4)]: the three
    proxies and the world after the calls. *)
Definition If_else_if (condition hT hE h3 h4 : U -> U * value) (w : world U)
  : nat * nat * nat * world U :=
  let '(x0, x1, w) := If_then_else condition (plain hT) (plain hE) w in
  let '(x1, w) := fork_then x1 (plain h3) w in
  let '(x2, w) := fork_else x1 (plain h4) w in
  (x0, x1, x2, w).

(** The world after these calls on a fresh program. *)
Definition else_if_world (condition hT hE h3 h4 : U -> U * value) (u : U)
  : world U :=
  World u [(1, TIfResolve condition 0)] 2 []
        [PromiseCell None [React (KFork 0) 1];
         PromiseCell None [React (KFork 1) 2];
         PromiseCell None [React (KFork 2) 3];
         PromiseCell None []]
        [] ∅
        [MkProxy 0 (plain hT) (plain hE) 1;
         MkProxy 1 (plain h3) (plain h4) 2;
         MkProxy 2 (plain noop) (plain noop) 3]
        [] [].

End ForkVocabulary.

(** [() => s] *)
Definition says (s : string) (u : unit) : unit * value := (u, VStr s).

(** ** More of List: [map] and [filter] *)

Module ListHandler.

(** The variables [newIndex] and [newList] that the callbacks of [map]
    and of [filter] share. They are kept beside the state of the
    caller. *)
Record collector := Collector {
  newIndex : nat;
  newList : list value
}.

(** [newList[newIndex] = x]: an index past the end extends the array,
    the elements in between reading [undefined]. *)
Definition array_set (i : nat) (x : value) (xs : list value) : list value :=
  if decide (i < length xs) then <[i := x]> xs
  else xs ++ replicate (i - length xs) VUndefined ++ [x].

(** The items [each] calls its handle on: the Loop runs its body
    before it looks at the length, so the empty list is visited as if
    it held [undefined]. *)
Definition visited (items : list value) : list value :=
  match items with
  | [] => [VUndefined]
  | _ => items
  end.

Section WithState.

Context {U : Type}.

(** The function [map] hands to [each]:
    [function(item, index) { newList[newIndex] = handle(item, index);
                             newIndex++; }] *)
Definition map_callback (handle : value -> nat -> U -> U * value)
    (item : value) (index : nat) (s : U * collector) : U * collector :=
  let r := handle item index s.1 in
  (r.1, Collector (S (newIndex s.2))
                  (array_set (newIndex s.2) r.2 (newList s.2))).

(** The function [filter] hands to [each]:
    [function(item, index) { if(condition(item, index)) {
       newList[newIndex] = item; newIndex++; } }] *)
Definition filter_callback (condition : value -> nat -> U -> U * value)
    (item : value) (index : nat) (s : U * collector) : U * collector :=
  let r := condition item index s.1 in
  (r.1, if truthy r.2
        then Collector (S (newIndex s.2))
                       (array_set (newIndex s.2) item (newList s.2))
        else s.2).

(** The executor of [map] and of [filter] up to the call of [.then]:
    the promise returned, the Loop of [each] and the promise of that
    Loop. *)
Definition collect (items : list value)
    (callback : value -> nat -> U * collector -> U * collector)
    (w : world (U * collector)) : nat * nat * nat * world (U * collector) :=
  let '(P, w) := new_Promise w in
  let w := set_ustate ((ustate w).1, Collector 0 []) w in
  let '(l, p, w) := each items (visitor callback) w in
  (P, l, p, w).

(** [ListHandler.prototype.map] *)
Definition map (items : list value)
    (handle : value -> nat -> U -> U * value) :=
  collect items (map_callback handle).

(** [ListHandler.prototype.filter] *)
Definition filter (items : list value)
    (condition : value -> nat -> U -> U * value) :=
  collect items (filter_callback condition).

(** The callback [map] and [filter] attach to the promise of [each]:
    [function() { resolve(newList); }]. It runs once that promise is
    fulfilled. *)
Definition resolve_newList (P : nat) (w : world (U * collector))
  : world (U * collector) :=
  settle P (Fulfilled (VArr (newList (ustate w).2))) w.

(** What [handle] returns on the items in turn, the first of them
    having index [i], with the state of the caller after the calls. *)
Fixpoint mapped (handle : value -> nat -> U -> U * value)
    (items : list value) (i : nat) (u : U) : U * list value :=
  match items with
  | [] => (u, [])
  | x :: rest =>
      let r := handle x i u in
      let rr := mapped handle rest (S i) r.1 in
      (rr.1, r.2 :: rr.2)
  end.

(** The items on which [condition] returns a truthy value, with the
    state of the caller after the calls. *)
Fixpoint filtered (condition : value -> nat -> U -> U * value)
    (items : list value) (i : nat) (u : U) : U * list value :=
  match items with
  | [] => (u, [])
  | x :: rest =>
      let r := condition x i u in
      let rr := filtered condition rest (S i) r.1 in
      (rr.1, if truthy r.2 then x :: rr.2 else rr.2)
  end.

End WithState.

End ListHandler.

(** * Properties *)

Section LoopFacts.

Context {U : Type}.
Implicit Types (w : world U) (f : U -> handle_result U).




Lemma step_quiescent w : quiescent w -> step w = w.
Proof. intros [Ht Hm]. unfold step. by rewrite Hm, Ht. Qed.

Lemma run_quiescent n w : quiescent w -> run n w = w.
Proof.
  intros Hq. induction n as [|n IH]; [done|].
  simpl. by rewrite step_quiescent.
Qed.

Lemma run_add n m w : run (n + m) w = run m (run n w).
Proof. revert w. induction n as [|n IH]; intros w; simpl; [done|]. apply IH. Qed.

Lemma run_from n m w : quiescent (run n w) -> n <= m -> run m w = run n w.
Proof.
  intros Hq Hle. replace m with (n + (m - n)) by lia.
  rewrite run_add. by apply run_quiescent.
Qed.

Lemma invocations_log l e w :
  invocations l (log e w) =
  invocations l w + (if is_handle_call l e then 1 else 0).
Proof.
  unfold invocations. simpl. rewrite filter_app, length_app. f_equal.
  destruct (is_handle_call l e) eqn:He.
  - rewrite filter_cons_True; [done|]. done.
  - rewrite filter_cons_False; [done|]. by rewrite He.
Qed.

Lemma live_continue l p t f mx i w :
  live l p t f mx i w ->
  h_calls (f (ustate w)) = [] ->
  truthy (h_return (f (ustate w))) = false ->
  max_reached (MkLoop mx (UserHandle f) (Some t) p i) = false ->
  live l p (next_timer w) f mx (i + 1) (step w) ∧
  ustate (step w) = h_state (f (ustate w)) ∧
  trace (step w) = trace w ++ [EvHandle l].
Proof.
  intros (Hl & Ht & Hm & Hp) Hc Hr Hx.
  unfold step. rewrite Hm, Ht.
  unfold run_task, wait, call_handle. simpl. rewrite Hl. simpl.
  rewrite Hc, Hr. simpl. rewrite Hl, Hx. simpl.
  repeat split; try done.
  simpl. rewrite !list_lookup_alter_eq, Hl. done.
Qed.

Lemma live_kill l p t f mx i w :
  live l p t f mx i w ->
  h_calls (f (ustate w)) = [] ->
  truthy (h_return (f (ustate w))) = false ->
  max_reached (MkLoop mx (UserHandle f) (Some t) p i) = true ->
  quiescent (step w) ∧
  state_of p (step w) =
    Some (Rejected (VStr "[Kill] maximum iterations reached.")) ∧
  ustate (step w) = h_state (f (ustate w)) ∧
  trace (step w) = trace w ++ [EvHandle l].
Proof.
  intros (Hl & Ht & Hm & Hp) Hc Hr Hx.
  unfold step. rewrite Hm, Ht.
  unfold run_task, wait, call_handle. simpl. rewrite Hl. simpl.
  rewrite Hc, Hr. simpl. rewrite Hl, Hx.
  unfold kill, terminate, clear_job, deferred_settle. simpl.
  rewrite Hl. simpl. rewrite list_lookup_alter_eq, Hl. simpl.
  unfold settle. simpl. rewrite Hp. unfold state_of, quiescent. simpl.
  rewrite list_lookup_insert_eq by eauto using lookup_lt_Some.
  rewrite Hm. done.
Qed.

Lemma live_done l p t f mx i w :
  live l p t f mx i w ->
  h_calls (f (ustate w)) = [] ->
  truthy (h_return (f (ustate w))) = true ->
  quiescent (step w) ∧
  state_of p (step w) = Some (Fulfilled VUndefined) ∧
  ustate (step w) = h_state (f (ustate w)) ∧
  trace (step w) = trace w ++ [EvHandle l].
Proof.
  intros (Hl & Ht & Hm & Hp) Hc Hr.
  unfold step. rewrite Hm, Ht.
  unfold run_task, wait, call_handle. simpl. rewrite Hl. simpl.
  rewrite Hc, Hr. simpl.
  unfold done, clear_job, deferred_settle. simpl.
  rewrite Hl. simpl. rewrite list_lookup_alter_eq, Hl. simpl.
  unfold settle. simpl. rewrite Hp. unfold state_of, quiescent. simpl.
  rewrite list_lookup_insert_eq by eauto using lookup_lt_Some.
  rewrite Hm. done.
Qed.

(** [j] ticks in a row on which the handle declines and the bound is
    not reached. *)
Lemma live_run l p f mx : forall (j : nat) t i w,
  live l p t f mx i w ->
  (forall u, h_calls (f u) = []) ->
  (forall j', j' < j ->
     truthy (h_return (f (iter_state f j' (ustate w)))) = false) ->
  match mx with Some m => (i + Z.of_nat j <= m)%Z | None => True end ->
  (exists t', live l p t' f mx (i + Z.of_nat j) (run j w)) ∧
  ustate (run j w) = iter_state f j (ustate w) ∧
  trace (run j w) = trace w ++ replicate j (EvHandle l).
Proof.
  induction j as [|j IH]; intros t i w Hlive Hc Hr Hx.
  - simpl. rewrite Z.add_0_r, app_nil_r. eauto.
  - assert (Hmax : max_reached (MkLoop mx (UserHandle f) (Some t) p i) = false).
    { unfold max_reached. simpl. destruct mx as [m|]; [|done].
      apply andb_false_intro2. apply Z.eqb_neq. lia. }
    destruct (live_continue _ _ _ _ _ _ _ Hlive (Hc _) (Hr 0 ltac:(lia)) Hmax)
      as (Hlive' & Hu & Htr).
    destruct (IH _ _ _ Hlive' Hc) as (Hl2 & Hu2 & Htr2).
    + intros j' Hj'. rewrite Hu.
      specialize (Hr (S j') ltac:(lia)).
      exact Hr.
    + destruct mx; [lia|done].
    + simpl. replace (i + Z.of_nat (S j))%Z with (i + 1 + Z.of_nat j)%Z by lia.
      split; [done|]. split.
      * by rewrite Hu2, Hu.
      * rewrite Htr2, Htr, <- app_assoc. done.
Qed.

Lemma until_live f iterations w :
  quiescent w ->
  live (length (loops w)) (length (promises w)) (next_timer w) f
       (or_null iterations) 1
       (until (UserHandle f) iterations w).2 ∧
  (until (UserHandle f) iterations w).1 =
    (length (loops w), length (promises w)) ∧
  ustate (until (UserHandle f) iterations w).2 = ustate w ∧
  trace (until (UserHandle f) iterations w).2 = trace w.
Proof.
  intros [Ht Hm]. unfold until, new_Loop, start, live. simpl.
  rewrite Ht, Hm. simpl.
  rewrite !list_lookup_alter_eq, !list_lookup_middle by done. simpl.
  repeat split; try done.
Qed.

Lemma invocations_replicate l (j : nat) w tr :
  trace w = tr ++ replicate j (EvHandle l) ->
  invocations l w =
    length (filter (fun e => is_handle_call l e = true) tr) + j.
Proof.
  intros Htr. unfold invocations. rewrite Htr, filter_app, length_app.
  f_equal. clear Htr. induction j as [|j IH]; [reflexivity|].
  change (replicate (S j) (EvHandle l : @event))
    with (EvHandle l :: replicate j (EvHandle l)).
  rewrite filter_cons_True by (simpl; apply Nat.eqb_refl).
  cbn [length]. f_equal. exact IH.
Qed.

Lemma live_pending l p t f mx i w :
  live l p t f mx i w -> state_of p w = None.
Proof. intros (_ & _ & _ & Hp). unfold state_of. by rewrite Hp. Qed.

(** C1. For a positive [n] and a handle that is a plain predicate and
    never returns a truthy value, [Loop.until(handle, n)] calls the
    handle once per turn of the event loop; the promise is pending as
    long as fewer than [n] calls were made, it is rejected with
    ["[Kill] maximum iterations reached."] by the [n]-th call, and no
    further call is ever made. *)
Theorem until_kills_after_n (g : U -> U * value) (n : Z) (u : U) :
  (0 < n)%Z ->
  (forall u', truthy (g u').2 = false) ->
  forall l p w, until (predicate g) (Some n) (init u) = (l, p, w) ->
  (forall j, j < Z.to_nat n ->
     state_of p (run j w) = None ∧ invocations l (run j w) = j) ∧
  (forall j, Z.to_nat n <= j ->
     state_of p (run j w) =
       Some (Rejected (VStr "[Kill] maximum iterations reached.")) ∧
     invocations l (run j w) = Z.to_nat n).
Proof.
  intros Hn Hr l p w Hu. unfold predicate in Hu.
  set (f := fun u' => HandleResult (g u').1 [] (g u').2) in *.
  assert (Hc : forall u', h_calls (f u') = []) by done.
  destruct (until_live f (Some n) (init u)) as (Hlive & Hlp & _ & Htr0);
    [done|].
  assert (Hmx : or_null (Some n) = Some n)
    by (destruct n; [lia|done..]).
  rewrite Hu, Hmx in Hlive. rewrite Hu in Hlp, Htr0. clear Hmx.
  simpl in Hlive, Hlp, Htr0. injection Hlp as -> ->.
  assert (Hrun : forall j, j < Z.to_nat n ->
            (exists t', live 0 0 t' f (Some n) (1 + Z.of_nat j) (run j w)) ∧
            trace (run j w) = [] ++ replicate j (EvHandle 0)).
  { intros j Hj.
    destruct (live_run 0 0 f (Some n) j _ _ _ Hlive Hc) as (Hl & _ & Ht).
    - intros. apply Hr.
    - lia.
    - rewrite Ht, Htr0. done. }
  split.
  - intros j Hj. destruct (Hrun j Hj) as ([t' Hl] & Ht). split.
    + eauto using live_pending.
    + by rewrite (invocations_replicate _ _ _ _ Ht).
  - intros j Hj.
    destruct (Hrun (Z.to_nat n - 1)) as ([t' Hl] & Ht); [lia|].
    replace (1 + Z.of_nat (Z.to_nat n - 1))%Z with n in Hl by lia.
    destruct (live_kill _ _ _ _ _ _ _ Hl (Hc _) (Hr _)) as (Hq & Hs & _ & Ht').
    { unfold max_reached. simpl. rewrite Z.eqb_refl.
      destruct (Z.eqb_spec n 0); [lia|done]. }
    replace j with (Z.to_nat n - 1 + (1 + (j - Z.to_nat n))) by lia.
    rewrite run_add. simpl. rewrite run_quiescent by done.
    split; [done|].
    rewrite Ht, <- app_assoc in Ht'.
    change ([EvHandle 0]) with (replicate 1 (EvHandle 0)) in Ht'.
    rewrite <- replicate_add in Ht'.
    rewrite (invocations_replicate _ _ _ _ Ht'). simpl. lia.
Qed.

(** C2. For a handle that is a plain predicate whose [k]-th call is
    the first to return a truthy value, and a bound on the iterations
    that is absent or at least [k], the promise of the Loop is pending
    as long as fewer than [k] calls were made, it is fulfilled by the
    [k]-th call, and no further call is ever made. *)
Theorem until_fulfils_after_k (g : U -> U * value) (iterations : option Z)
    (k : nat) (u : U) :
  1 <= k ->
  (forall j, j < k - 1 ->
     truthy (g (after (fun u' => (g u').1) j u)).2 = false) ->
  truthy (g (after (fun u' => (g u').1) (k - 1) u)).2 = true ->
  match iterations with Some n => (Z.of_nat k <= n)%Z | None => True end ->
  forall l p w, until (predicate g) iterations (init u) = (l, p, w) ->
  (forall j, j < k ->
     state_of p (run j w) = None ∧ invocations l (run j w) = j) ∧
  (forall j, k <= j ->
     state_of p (run j w) = Some (Fulfilled VUndefined) ∧
     invocations l (run j w) = k).
Proof.
  intros Hk Hf Ht Hb l p w Hu. unfold predicate in Hu.
  set (f := fun u' => HandleResult (g u').1 [] (g u').2) in *.
  assert (Hc : forall u', h_calls (f u') = []) by done.
  destruct (until_live f iterations (init u)) as (Hlive & Hlp & Hu0 & Htr0);
    [done|].
  rewrite Hu in Hlive, Hlp, Hu0, Htr0. simpl in Hlive, Hlp, Hu0, Htr0.
  injection Hlp as -> ->.
  set (mx := or_null iterations) in *.
  assert (Hrun : forall j, j < k ->
            (exists t', live 0 0 t' f mx (1 + Z.of_nat j) (run j w)) ∧
            ustate (run j w) = iter_state f j u ∧
            trace (run j w) = [] ++ replicate j (EvHandle 0)).
  { intros j Hj.
    destruct (live_run 0 0 f mx j _ _ _ Hlive Hc) as (Hl & Hu' & Ht').
    - intros j' Hj'. rewrite Hu0. apply Hf. lia.
    - subst mx. unfold or_null. destruct iterations as [[| |]|]; try done; lia.
    - rewrite Hu', Ht', Hu0, Htr0. done. }
  split.
  - intros j Hj. destruct (Hrun j Hj) as ([t' Hl] & _ & Ht'). split.
    + eauto using live_pending.
    + by rewrite (invocations_replicate _ _ _ _ Ht').
  - intros j Hj.
    destruct (Hrun (k - 1)) as ([t' Hl] & Hu' & Ht'); [lia|].
    destruct (live_done _ _ _ _ _ _ _ Hl (Hc _)) as (Hq & Hs & _ & Ht'').
    { rewrite Hu'. exact Ht. }
    replace j with (k - 1 + (1 + (j - k))) by lia.
    rewrite run_add. simpl. rewrite run_quiescent by done.
    split; [done|].
    rewrite Ht', <- app_assoc in Ht''.
    change ([EvHandle 0]) with (replicate 1 (EvHandle 0)) in Ht''.
    rewrite <- replicate_add in Ht''.
    rewrite (invocations_replicate _ _ _ _ Ht''). simpl. lia.
Qed.

End LoopFacts.

Section LoopSimulation.

Context {U : Type}.
Implicit Types (w : world U) (f : U -> handle_result U).


End LoopSimulation.

(** ** What a turn of the event loop leaves alone *)

Section Frame.

Context {U : Type}.
Implicit Types (w : world U) (A : nat -> Prop).


Lemma frame_refl A w : frame A w w.
Proof. unfold frame. naive_solver. Qed.

Lemma frame_trans A w1 w2 w3 :
  frame A w1 w2 -> frame A w2 w3 -> frame A w1 w3.
Proof.
  intros (H1 & H2 & H3 & H4) (K1 & K2 & K3 & K4). repeat split.
  - congruence.
  - intros e He. destruct (K2 e He) as [?|?]; eauto.
  - eauto.
  - intros l Hl. rewrite K4, H4; done.
Qed.

Lemma frame_mono A B w w' :
  (forall l, A l -> B l) -> frame A w w' -> frame B w w'.
Proof.
  intros HAB (H1 & H2 & H3 & H4). repeat split; [done| |done|].
  - intros e He. destruct (H2 e He) as [?|(l & ? & ?)]; eauto.
  - intros l Hl. apply H4. eauto.
Qed.

Lemma frame_settle A p o w : frame A w (settle p o w).
Proof.
  unfold settle. destruct (promises w !! p) as [[[o'|] rs]|] eqn:Hp;
    try apply frame_refl.
  repeat split; simpl; eauto.
  intros q o' Hq. unfold state_of in *. simpl.
  destruct (decide (p = q)) as [->|Hne].
  - rewrite Hp in Hq. done.
  - by rewrite list_lookup_insert_ne.
Qed.

Lemma frame_resolve_with A d r w : frame A w (resolve_with d r w).
Proof.
  destruct r as [v|q]; simpl; [apply frame_settle|].
  destruct (promises w !! q) as [[[o'|] rs]|] eqn:Hp;
    try apply frame_refl.
  - repeat split; simpl; eauto.
  - repeat split; simpl; eauto.
    intros q' o' Hq. unfold state_of in *. simpl.
    destruct (decide (q = q')) as [->|Hne].
    + rewrite Hp in Hq. done.
    + by rewrite list_lookup_insert_ne.
Qed.

Lemma frame_clear_job A l w : frame A w (clear_job l w).
Proof.
  unfold clear_job. destruct (loops w !! l) as [L|]; [|apply frame_refl].
  destruct (job L) as [t|]; [|apply frame_refl].
  repeat split; simpl; eauto.
  intros e [_ He]%list_elem_of_filter. eauto.
Qed.

Lemma frame_deferred_settle A l o w : frame A w (deferred_settle l o w).
Proof.
  unfold deferred_settle. destruct (loops w !! l); [|apply frame_refl].
  apply frame_settle.
Qed.

Lemma frame_this_call A l c w : frame A w (run_this_call l c w).
Proof.
  destruct c; simpl; unfold cancel, kill, terminate, done;
    (eapply frame_trans; [apply frame_clear_job|apply frame_deferred_settle]).
Qed.

Lemma frame_this_calls A l cs w : frame A w (run_this_calls l cs w).
Proof.
  revert w. induction cs as [|c cs IH]; intros w; [apply frame_refl|].
  simpl. eapply frame_trans; [apply frame_this_call|apply IH].
Qed.

Lemma frame_eq A w w' :
  loopMap w' = loopMap w ->
  timers w' = timers w ->
  promises w' = promises w ->
  (forall l, ¬ A l -> invocations l w' = invocations l w) ->
  frame A w w'.
Proof.
  intros H1 H2 H3 H4. repeat split; [done| |  |done].
  - intros e He. left. by rewrite <- H2.
  - intros p o. unfold state_of. by rewrite H3.
Qed.

Lemma frame_call_each A l h item index w :
  frame A w (call_each l h item index w).
Proof.
  assert (Hlog : forall u', frame A w
            (set_ustate u' (log (EvItem l item index) w))).
  { intros u'. apply frame_eq; try done.
    intros l' _. unfold invocations. simpl.
    rewrite filter_app, filter_cons_False, filter_nil, app_nil_r; done. }
  unfold call_each. destruct h as [f|condition fr]; simpl.
  - destruct (f item index (ustate w)) as [u cs].
    eapply frame_trans; [apply Hlog|apply frame_this_calls].
  - destruct (condition item index (ustate w)) as [u c].
    destruct (truthy c); [|apply Hlog].
    unfold done.
    eapply frame_trans; [|apply frame_deferred_settle].
    eapply frame_trans; [|apply frame_clear_job].
    eapply frame_trans; [apply (Hlog u)|].
    eapply frame_trans with (w2 := set_resolved fr _);
      [apply frame_eq; done|].
    case_match; [apply frame_settle|apply frame_refl].
Qed.

Lemma frame_call_handle A l w :
  A l -> frame A w (call_handle l w).2.
Proof.
  intros HA. unfold call_handle.
  destruct (loops w !! l) as [L|]; [|apply frame_refl].
  assert (Hlog : frame A w (log (EvHandle l) w)).
  { apply frame_eq; try done.
    intros l' Hl'. unfold invocations. simpl.
    rewrite filter_app, filter_cons_False, filter_nil, app_nil_r; [done|].
    simpl. rewrite not_true_iff_false. apply Nat.eqb_neq. congruence. }
  destruct (handle L) as [f|items index h]; simpl.
  - eapply frame_trans; [|apply frame_this_calls].
    eapply frame_trans; [apply Hlog|]. apply frame_eq; done.
  - eapply frame_trans; [apply Hlog|].
    eapply frame_trans; [apply frame_call_each|]. apply frame_eq; done.
Qed.

Lemma wait_unfold l w :
  wait l w = wait_rest l (call_handle l w).1 (call_handle l w).2.
Proof. unfold wait. by destruct (call_handle l w). Qed.

Lemma frame_wait_rest A l r w : A l -> frame A w (wait_rest l r w).
Proof.
  intros HA. unfold wait_rest.
  destruct (truthy r).
  { apply (frame_this_call A l CallDone). }
  destruct (loops w !! l) as [L|]; [|apply frame_refl].
  destruct (max_reached L).
  { apply (frame_this_call A l (CallKill _)). }
  repeat split; simpl; eauto.
  intros e [He|He]%elem_of_app; [by left|].
  apply list_elem_of_singleton in He as ->. right. eauto.
Qed.

Lemma frame_wait A l w : A l -> frame A w (wait l w).
Proof.
  intros HA. rewrite wait_unfold.
  eapply frame_trans; [by apply frame_call_handle|by apply frame_wait_rest].
Qed.

Lemma frame_fork_callback A x v w : frame A w (fork_callback x v w).2.
Proof.
  unfold fork_callback. destruct (proxies w !! x) as [X|]; [|apply frame_refl].
  assert (Hlog : forall e u', (forall l, is_handle_call l e = false) ->
            frame A w (set_ustate u' (log e w))).
  { intros e u' He. apply frame_eq; try done.
    intros l' _. unfold invocations. simpl.
    rewrite filter_app, filter_cons_False, filter_nil, app_nil_r; [done|].
    by rewrite He. }
  match goal with
  | |- context [let '(returns, w') := ?q in _] =>
      assert (Hq : frame A w q.2); [|destruct q as [[r|y] w1]]
  end.
  - destruct v as [| |[|]| | | |]; simpl; try apply frame_refl.
    + destruct (thenHandle X (ustate w)) as [u r]. simpl. by apply Hlog.
    + destruct (elseHandle X (ustate w)) as [u r]. simpl. by apply Hlog.
  - exact Hq.
  - simpl in *. by case_match.
Qed.

Lemma frame_find_callback A fr w : frame A w (find_callback fr w).2.
Proof.
  unfold find_callback. destruct (frames w !! fr) as [f|]; [|apply frame_refl].
  simpl. destruct (resolved f); [apply frame_refl|apply frame_settle].
Qed.

Lemma frame_run_job A j w : frame A w (run_job j w).
Proof.
  destruct j as [k v d|d o]; simpl; [|apply frame_settle].
  destruct k as [x|fr].
  - pose proof (frame_fork_callback A x v w) as H.
    destruct (fork_callback x v w) as [r w1].
    eapply frame_trans; [apply H|apply frame_resolve_with].
  - pose proof (frame_find_callback A fr w) as H.
    destruct (find_callback fr w) as [r w1].
    eapply frame_trans; [apply H|apply frame_resolve_with].
Qed.

Lemma this_call_unfold l c w :
  run_this_call l c w = deferred_settle l (outcome_of c) (clear_job l w).
Proof. by destruct c. Qed.

(** One turn of the event loop only runs Loops that had a tick
    pending. *)
Lemma frame_step w :
  frame (fun l => exists t, (t, TWait l) ∈ timers w) w (step w).
Proof.
  unfold step. destruct (microtasks w) as [|j js] eqn:Hm.
  - destruct (timers w) as [|[t tk] ts] eqn:Ht; [apply frame_refl|].
    eapply frame_trans with (w2 := set_timers ts w).
    { repeat split; simpl; eauto.
      intros e He. left. rewrite Ht. by apply list_elem_of_further. }
    destruct tk as [l|condition p]; simpl.
    + apply frame_wait. exists t. apply list_elem_of_here.
    + destruct (condition (ustate w)) as [u v].
      eapply frame_trans; [|apply frame_settle].
      apply frame_eq; try done.
      intros l' _. unfold invocations. simpl.
      rewrite filter_app, filter_cons_False, filter_nil, app_nil_r; done.
  - eapply frame_trans with (w2 := set_microtasks js w).
    { apply frame_eq; done. }
    apply frame_run_job.
Qed.


Lemma no_tick_run l n w :
  no_tick l w ->
  no_tick l (run n w) ∧ invocations l (run n w) = invocations l w.
Proof.
  revert w. induction n as [|n IH]; intros w Hn; [done|].
  destruct (frame_step w) as (_ & Ht & _ & Hi).
  assert (Hn' : no_tick l (step w)).
  { intros t He. destruct (Ht _ He) as [He'|(l' & [t' Ht'] & Heq)].
    - by apply (Hn t).
    - simpl in Heq. injection Heq as ->. by apply (Hn t'). }
  destruct (IH _ Hn') as [H1 H2]. simpl. split; [done|].
  rewrite H2. apply Hi. intros [t He]. by apply (Hn t).
Qed.

Lemma settled_run p o n w :
  state_of p w = Some o -> state_of p (run n w) = Some o.
Proof.
  revert w. induction n as [|n IH]; intros w Hs; [done|].
  simpl. apply IH. by apply (frame_step w).
Qed.


End Frame.

(** ** Terminating a Loop twice *)

Section Termination.

Context {U : Type}.
Implicit Types (w : world U).

(** What any of [done], [terminate], [cancel] and [kill] leaves behind:
    no scheduled tick is recorded and the promise is not pending. *)
Lemma settle_absorbs p o1 o2 w :
  settle p o2 (settle p o1 w) = settle p o1 w.
Proof.
  unfold settle at 2 3.
  destruct (promises w !! p) as [[[o'|] rs]|] eqn:Hp.
  - unfold settle. by rewrite Hp.
  - unfold settle. simpl.
    rewrite list_lookup_insert_eq by eauto using lookup_lt_Some. done.
  - unfold settle. by rewrite Hp.
Qed.

Lemma clear_job_deferred_settle l o w :
  clear_job l (deferred_settle l o (clear_job l w)) =
  deferred_settle l o (clear_job l w).
Proof.
  unfold clear_job at 2 3. destruct (loops w !! l) as [L|] eqn:Hl.
  - assert (Hj : forall w', (exists L', loops w' !! l = Some L' ∧ job L' = None) ->
               clear_job l (deferred_settle l o w') = deferred_settle l o w').
    { intros w' (L' & HL' & Hj). unfold deferred_settle. rewrite HL'.
      unfold clear_job.
      replace (loops (settle (promise L') o w')) with (loops w')
        by (unfold settle; by repeat case_match).
      by rewrite HL', Hj. }
    destruct (job L) as [t|] eqn:HjL; apply Hj.
    + exists (set_job None L). simpl. by rewrite list_lookup_alter_eq, Hl.
    + eauto.
  - unfold deferred_settle. rewrite Hl. unfold clear_job. by rewrite Hl.
Qed.

Lemma deferred_settle_absorbs l o1 o2 w :
  deferred_settle l o2 (deferred_settle l o1 w) = deferred_settle l o1 w.
Proof.
  unfold deferred_settle at 2 3. destruct (loops w !! l) as [L|] eqn:Hl.
  - unfold deferred_settle.
    replace (loops (settle (promise L) o1 w)) with (loops w)
      by (unfold settle; by repeat case_match).
    rewrite Hl. apply settle_absorbs.
  - unfold deferred_settle. by rewrite Hl.
Qed.

(** C9. Whatever method ended a Loop first, a second call of [done],
    [terminate], [cancel] or [kill] leaves everything as it was: the
    promise keeps the settlement it had (the one the first call asked
    for, if it was pending then) for every later turn of the event
    loop, and when the only tick pending for the Loop was its recorded
    [job], its handle is never called again. *)
Theorem second_termination_has_no_effect (l : nat) (c1 c2 : this_call) w :
  let w1 := run_this_call l c1 w in
  let w2 := run_this_call l c2 w1 in
  w2 = w1 ∧
  (forall L rs, loops w !! l = Some L ->
     promises w !! promise L = Some (PromiseCell None rs) ->
     state_of (promise L) w1 = Some (outcome_of c1)) ∧
  (forall p o n, state_of p w1 = Some o -> state_of p (run n w2) = Some o) ∧
  (forall L, loops w !! l = Some L ->
     (forall t, (t, TWait l) ∈ timers w -> job L = Some t) ->
     forall n, invocations l (run n w2) = invocations l w).
Proof.
  intros w1 w2.
  assert (H21 : w2 = w1).
  { subst w1 w2. rewrite !this_call_unfold.
    rewrite clear_job_deferred_settle. apply deferred_settle_absorbs. }
  split; [done|]. rewrite H21. repeat split.
  - intros L rs Hl Hp. subst w1. rewrite this_call_unfold.
    assert (Hc : exists L', loops (clear_job l w) !! l = Some L' ∧
                   promise L' = promise L ∧
                   promises (clear_job l w) = promises w).
    { unfold clear_job. rewrite Hl. destruct (job L); [|eauto].
      simpl. rewrite list_lookup_alter_eq, Hl. simpl. eauto. }
    destruct Hc as (L' & HL' & Hpp & Hps).
    unfold deferred_settle. rewrite HL', Hpp.
    unfold settle, state_of. rewrite Hps, Hp. simpl.
    rewrite list_lookup_insert_eq by eauto using lookup_lt_Some. done.
  - intros p o n Hs. by apply settled_run.
  - intros L Hl Hj n.
    assert (Hn : no_tick l w1).
    { subst w1. rewrite this_call_unfold. intros t Ht.
      destruct (frame_deferred_settle (fun _ => False) l (outcome_of c1)
                  (clear_job l w)) as (_ & Hs & _).
      destruct (Hs _ Ht) as [Ht'|(? & [] & _)].
      unfold clear_job in Ht'. rewrite Hl in Ht'.
      destruct (job L) as [t0|] eqn:Hj0.
      - simpl in Ht'. apply list_elem_of_filter in Ht' as [Hne Hin].
        specialize (Hj _ Hin). simpl in Hne. congruence.
      - specialize (Hj _ Ht'). congruence. }
    destruct (no_tick_run l n w1 Hn) as [_ ->].
    apply (frame_this_call (fun _ => False) l c1 w). tauto.
Qed.

End Termination.

(** ** Unique loops *)

Section Unique.

Context {U : Type}.
Implicit Types (w : world U).







End Unique.

(** ** If *)

Section Fork.

Context {U : Type}.
Implicit Types (w : world U).


Lemma If_then_else_init (condition : U -> U * value) hT hE u :
  If_then_else condition hT hE (init u) =
  (0, 1, chain_world condition hT hE u).
Proof. reflexivity. Qed.

(** The three turns the chain takes: the timer callback evaluates
    [condition], the callback of the first proxy picks a handle, the
    callback of the second proxy passes nothing on. *)
Lemma chain_run (condition : U -> U * value) hT hE u u1 v u2 a es :
  condition u = (u1, v) ->
  match v with
  | VBool true => (hT u1, [EvThen 0])
  | VBool false => (hE u1, [EvElse 0])
  | _ => ((u1, RetValue VNull), [])
  end = ((u2, RetValue a), es) ->
  (forall b, a ≠ VBool b) ->
  let w := chain_world condition hT hE u in
  trace (run 1 w) = [EvCondition] ∧
  trace (run 2 w) = EvCondition :: es ∧
  ustate (run 2 w) = u2 ∧
  state_of 1 (run 2 w) = Some (Fulfilled a) ∧
  trace (run 3 w) = EvCondition :: es ∧
  state_of 2 (run 3 w) = Some (Fulfilled VNull) ∧
  quiescent (run 3 w).
Proof.
  intros Hc Hv Ha w.
  set (xs := proxies w).
  set (w1 := World u1 [] 2 [JRun (KFork 0) v 1]
               [PromiseCell (Some (Fulfilled v)) [];
                PromiseCell None [React (KFork 1) 2];
                PromiseCell None []] [] ∅ xs [] [EvCondition]).
  set (w2 := World u2 [] 2 [JRun (KFork 1) a 2]
               [PromiseCell (Some (Fulfilled v)) [];
                PromiseCell (Some (Fulfilled a)) [];
                PromiseCell None []] [] ∅ xs [] (EvCondition :: es)).
  set (w3 := World u2 [] 2 []
               [PromiseCell (Some (Fulfilled v)) [];
                PromiseCell (Some (Fulfilled a)) [];
                PromiseCell (Some (Fulfilled VNull)) []] [] ∅ xs []
               (EvCondition :: es)).
  assert (H1 : step w = w1).
  { unfold step. cbn. rewrite Hc. reflexivity. }
  assert (H2 : step w1 = w2).
  { unfold step. cbn. unfold fork_callback. cbn.
    destruct v as [| |[|]| | | |]; cbn;
      try (injection Hv as <- <- <-; reflexivity);
      injection Hv as Hh <-; rewrite Hh; reflexivity. }
  assert (H3 : step w2 = w3).
  { unfold step. cbn. unfold fork_callback. cbn.
    destruct a as [| |b| | | |]; try reflexivity. by destruct (Ha b). }
  cbn [run]. rewrite H1, H2, H3. done.
Qed.

(** C8. [If(condition).then(() => "A").else(() => "B")]: [.then]
    returns the proxy it is called on and [.else] a new proxy that
    wraps the continuation [next] of the first one; when [condition]
    returns [true] that continuation is fulfilled with ["A"] and only
    the then-handle has been called, when it returns [false] it is
    fulfilled with ["B"] and only the else-handle has been called. *)
Theorem if_then_else_resolves (condition : U -> U * value) (b : bool)
    (u : U) :
  (condition u).2 = VBool b ->
  let hA := fun u' : U => (u', RetValue (VStr "A")) in
  let hB := fun u' : U => (u', RetValue (VStr "B")) in
  (fork_then 0 hA (If condition (init u)).2).1 = (If condition (init u)).1 ∧
  let '(x0, x2, w) := If_then_else condition hA hB (init u) in
  x2 ≠ x0 ∧
  exists X0 X2,
    proxies w !! x0 = Some X0 ∧ proxies w !! x2 = Some X2 ∧
    x_promise X2 = next X0 ∧
    forall n, 2 <= n ->
      state_of (next X0) (run n w) =
        Some (Fulfilled (VStr (if b then "A" else "B"))) ∧
      trace (run n w) = [EvCondition; if b then EvThen x0 else EvElse x0].
Proof.
  intros Hc hA hB. split; [reflexivity|].
  rewrite If_then_else_init. split; [done|].
  eexists _, _. split; [reflexivity|]. split; [reflexivity|].
  split; [reflexivity|]. simpl.
  destruct (condition u) as [u1 v] eqn:Hcu. simpl in Hc. subst v.
  destruct (chain_run condition hA hB u u1 (VBool b) u1
              (VStr (if b then "A" else "B"))
              [if b then EvThen 0 else EvElse 0] Hcu)
    as (_ & K2 & _ & K1 & K3 & _ & K4); [by destruct b|by destruct b|].
  intros n Hn. split.
  - replace n with (2 + (n - 2)) by lia. rewrite run_add.
    by apply settled_run.
  - destruct (decide (n = 2)) as [->|Hne]; [done|].
    rewrite (run_from 3 n) by (done || lia). done.
Qed.

(** C10. When what [condition] returns is neither [true] nor [false],
    [If(condition).then(hT).else(hE)] calls neither [hT] nor [hE], on
    any turn of the event loop, and the continuation [next] of the
    proxy is fulfilled with [null]. *)
Theorem if_non_boolean_resolves_null (condition : U -> U * value)
    (hT hE : U -> U * fork_return) (u : U) :
  (condition u).2 ≠ VBool true ->
  (condition u).2 ≠ VBool false ->
  let '(x0, x2, w) := If_then_else condition hT hE (init u) in
  exists X0,
    proxies w !! x0 = Some X0 ∧
    thenHandle X0 = hT ∧ elseHandle X0 = hE ∧
    forall n,
      (forall e, e ∈ trace (run n w) -> e = EvCondition) ∧
      (2 <= n -> state_of (next X0) (run n w) = Some (Fulfilled VNull)).
Proof.
  intros Ht Hf. rewrite If_then_else_init.
  eexists. split; [reflexivity|]. split; [reflexivity|].
  split; [reflexivity|]. simpl.
  destruct (condition u) as [u1 v] eqn:Hcu. simpl in Ht, Hf.
  destruct (chain_run condition hT hE u u1 v u1 VNull [] Hcu)
    as (K1 & K2 & _ & K3 & K4 & _ & K5);
    [by destruct v as [| |[|]| | | |]|done|].
  intros n. split.
  - intros e He.
    assert (Hcases : n = 0 ∨ n = 1 ∨ n = 2 ∨ 3 <= n) by lia.
    destruct Hcases as [->|[->|[->|Hn]]].
    + simpl in He. by apply elem_of_nil in He.
    + rewrite K1 in He. by apply list_elem_of_singleton in He.
    + rewrite K2 in He. by apply list_elem_of_singleton in He.
    + rewrite (run_from 3 n), K4 in He by done.
      by apply list_elem_of_singleton in He.
  - intros Hn. replace n with (2 + (n - 2)) by lia. rewrite run_add.
    by apply settled_run.
Qed.

End Fork.

(** ** List *)

Section ListFacts.

Context {U : Type}.
Implicit Types (w : world U).

Lemma each_live_step l p t items j g i w x :
  each_live l p t items j (visitor g) i w ->
  items !! j = Some x ->
  ustate (step w) = g x j (ustate w) ∧
  trace (step w) = trace w ++ [EvHandle l; EvItem l x j] ∧
  if decide (S j < length items)
  then each_live l p (next_timer w) items (S j) (visitor g) (i + 1) (step w)
  else quiescent (step w) ∧
       state_of p (step w) = Some (Fulfilled VUndefined).
Proof.
  intros (Hl & Ht & Hm & Hp) Hx.
  pose proof (lookup_lt_Some _ _ _ Hx) as Hlen.
  unfold step. rewrite Hm, Ht.
  unfold run_task, wait, call_handle. simpl. rewrite Hl. simpl.
  rewrite Hx. simpl.
  destruct (decide (S j < length items)) as [Hlt|Hge].
  - assert (Hb : (Z.of_nat (length items) - 1 <? Z.of_nat (S j))%Z = false)
      by (apply Z.ltb_ge; lia).
    rewrite Hb, list_lookup_alter_eq, Hl. simpl.
    repeat split; try done; simpl.
    + by rewrite <- app_assoc.
    + by rewrite !list_lookup_alter_eq, Hl.
  - assert (Hb : (Z.of_nat (length items) - 1 <? Z.of_nat (S j))%Z = true)
      by (apply Z.ltb_lt; lia).
    rewrite Hb. unfold done, clear_job, deferred_settle. simpl.
    rewrite list_lookup_alter_eq, Hl. simpl.
    rewrite !list_lookup_alter_eq, Hl. simpl.
    unfold settle. simpl. rewrite Hp. unfold state_of, quiescent. simpl.
    rewrite list_lookup_insert_eq by eauto using lookup_lt_Some.
    rewrite Hm, <- app_assoc. done.
Qed.

Lemma each_live_run g l p : forall rest seen t i w,
  rest ≠ [] ->
  each_live l p t (seen ++ rest) (length seen) (visitor g) i w ->
  (forall n, n < length rest -> state_of p (run n w) = None) ∧
  quiescent (run (length rest) w) ∧
  state_of p (run (length rest) w) = Some (Fulfilled VUndefined) ∧
  ustate (run (length rest) w) = each_state g rest (length seen) (ustate w) ∧
  trace (run (length rest) w) =
    trace w ++ each_events l rest (length seen).
Proof.
  induction rest as [|x rest IH]; intros seen t i w Hne Hlive; [done|].
  assert (Hp0 : state_of p w = None).
  { destruct Hlive as (_ & _ & _ & Hp). unfold state_of. by rewrite Hp. }
  destruct (each_live_step _ _ _ _ _ _ _ _ x Hlive) as (Hu & Htr & Hnext).
  { by rewrite list_lookup_middle. }
  destruct (decide (S (length seen) < length (seen ++ x :: rest)))
    as [Hlt|Hge].
  - assert (Hrest : rest ≠ []).
    { intros ->. rewrite length_app in Hlt. simpl in Hlt. lia. }
    replace (seen ++ x :: rest) with ((seen ++ [x]) ++ rest) in Hnext
      by (by rewrite <- app_assoc).
    replace (S (length seen)) with (length (seen ++ [x])) in Hnext
      by (rewrite length_app; simpl; lia).
    destruct (IH _ _ _ _ Hrest Hnext) as (K0 & K1 & K2 & K3 & K4).
    rewrite length_app in K3, K4. simpl in K3, K4.
    rewrite Nat.add_1_r in K3, K4.
    simpl. split; [|split; [done|split; [done|split]]].
    + intros [|n] Hn; [done|]. simpl. apply K0. simpl in Hn. lia.
    + by rewrite K3, Hu.
    + rewrite K4, Htr, <- app_assoc. done.
  - assert (rest = []) as ->.
    { destruct rest; [done|]. rewrite length_app in Hge. simpl in Hge. lia. }
    destruct Hnext as [Hq Hs]. simpl.
    split; [|split; [done|split; [done|split; [done|]]]].
    + intros [|n] Hn; [done|]. simpl in Hn. lia.
    + exact Htr.
Qed.

(** On a list that is not empty, [each] with a handle that only works
    on the caller's state calls it on every item in the order of the
    indices, once each, one per turn of the event loop, and fulfils
    its promise by the last call. *)
Theorem each_visits_every_item (g : value -> nat -> U -> U)
    (items : list value) (u : U) :
  items ≠ [] ->
  let '(l, p, w) := each items (visitor g) (init u) in
  (forall n, n < length items -> state_of p (run n w) = None) ∧
  (forall n, length items <= n ->
     state_of p (run n w) = Some (Fulfilled VUndefined) ∧
     ustate (run n w) = each_state g items 0 u ∧
     trace (run n w) = each_events l items 0).
Proof.
  intros Hne.
  destruct (each_live_run g 0 0 items [] 1 1 (each items (visitor g) (init u)).2
              Hne) as (K0 & K1 & K2 & K3 & K4).
  { by repeat split. }
  simpl. split; [exact K0|].
  intros n Hn. rewrite (run_from (length items) n) by done. done.
Qed.

Lemma step_tick (w : world U) t l ts :
  microtasks w = [] -> timers w = (t, TWait l) :: ts ->
  step w = wait l (set_timers ts w).
Proof. intros Hm Ht. unfold step. by rewrite Hm, Ht. Qed.

Lemma call_handle_each (w : world U) l L items j h :
  loops w !! l = Some L ->
  handle L = EachHandle items j h ->
  call_handle l w =
  (VBool (Z.of_nat (length items) - 1 <? Z.of_nat (S j))%Z,
   alter_loop (set_handle (EachHandle items (S j) h)) l
     (call_each l h (default VUndefined (items !! j)) j
        (log (EvHandle l) w))).
Proof. intros Hl Hh. unfold call_handle. by rewrite Hl, Hh. Qed.

Lemma call_each_find (w : world U) l condition fr x j u' v :
  condition x j (ustate w) = (u', v) ->
  call_each l (FindBody condition fr) x j w =
  let w1 := set_ustate u' (log (EvItem l x j) w) in
  if truthy v then
    done l (match frames w !! fr with
            | Some f =>
                settle (target f) (Fulfilled (found x j)) (set_resolved fr w1)
            | None => set_resolved fr w1
            end)
  else w1.
Proof.
  intros Hc. unfold call_each. cbn [ustate log]. rewrite Hc.
  destruct (truthy v); [|reflexivity].
  cbn [frames set_resolved set_frames set_ustate log].
  rewrite list_lookup_alter. case_decide; [|done].
  by destruct (frames w !! fr).
Qed.

Lemma state_of_schedule (w : world U) q tk l :
  state_of q (let '(t, w') := setTimeout tk w in
              alter_loop (set_job (Some t)) l w') = state_of q w.
Proof. reflexivity. Qed.

Lemma state_of_alter_loop (w : world U) q f l :
  state_of q (alter_loop f l w) = state_of q w.
Proof. reflexivity. Qed.

Lemma find_live_step l P p d fr t items j condition i w x :
  find_live l P p d fr t items j condition i w ->
  items !! j = Some x ->
  let '(u', v) := condition x j (ustate w) in
  if truthy v then state_of P (step w) = Some (Fulfilled (found x j))
  else if decide (S j < length items)
  then find_live l P p d fr (next_timer w) items (S j) condition (i + 1)
                 (step w) ∧
       ustate (step w) = u'
  else state_of P (step (step w)) = Some (Rejected VNull).
Proof.
  intros (Hl & Ht & Hm & Hne & HP & Hp & Hf) Hx.
  pose proof (lookup_lt_Some _ _ _ Hx) as Hlen.
  pose proof (lookup_lt_Some _ _ _ HP) as HPlen.
  pose proof (lookup_lt_Some _ _ _ Hp) as Hplen.
  destruct (condition x j (ustate w)) as [u' v] eqn:Hc.
  rewrite (step_tick w t l [] Hm Ht).
  destruct (truthy v) eqn:Hv.
  - rewrite wait_unfold.
    rewrite (call_handle_each (set_timers [] w) l _ items j
               (FindBody condition fr) Hl eq_refl).
    rewrite Hx. cbn [default from_option id fst snd].
    rewrite (call_each_find (log (EvHandle l) (set_timers [] w)) l condition
               fr x j u' v Hc).
    cbn [frames log set_timers]. rewrite Hf, Hv. cbn [target]. cbv zeta.
    apply (frame_wait_rest (fun _ => True) l); [done|].
    rewrite state_of_alter_loop.
    apply (frame_this_call (fun _ => False) l CallDone).
    unfold state_of, settle.
    cbn [promises set_resolved set_frames set_ustate log set_timers].
    rewrite HP. cbn [promises set_microtasks set_promises].
    by rewrite list_lookup_insert_eq.
  - unfold wait.
    rewrite (call_handle_each (set_timers [] w) l _ items j
               (FindBody condition fr) Hl eq_refl).
    rewrite Hx. cbn [default from_option id].
    rewrite (call_each_find (log (EvHandle l) (set_timers [] w)) l condition
               fr x j u' v Hc).
    cbn [frames log set_timers]. rewrite Hv. cbv zeta.
    cbn [truthy].
    destruct (decide (S j < length items)) as [Hlt|Hge].
    + assert (Hb : (Z.of_nat (length items) - 1 <? Z.of_nat (S j))%Z = false)
        by (apply Z.ltb_ge; lia).
      rewrite Hb. cbn [loops alter_loop set_loops set_ustate log set_timers].
      rewrite list_lookup_alter_eq, Hl. cbn [fmap option_fmap option_map].
      replace (max_reached _) with false by reflexivity.
      unfold find_live, setTimeout.
      cbn [loops timers microtasks promises frames ustate next_timer snd fst
           alter_loop set_loops set_ustate log set_timers set_next_timer
           set_job set_handle set_iteration
           maxIterations handle job promise iteration].
      rewrite !list_lookup_alter_eq, Hl.
      repeat split; try done.
    + assert (Hb : (Z.of_nat (length items) - 1 <? Z.of_nat (S j))%Z = true)
        by (apply Z.ltb_lt; lia).
      rewrite Hb.
      set (w1 := alter_loop _ l _).
      assert (H1 : loops w1 !! l = Some (MkLoop None
                     (EachHandle items (S j) (FindBody condition fr))
                     (Some t) p i)).
      { subst w1. cbn [loops alter_loop set_loops set_ustate log set_timers].
        by rewrite list_lookup_alter_eq, Hl. }
      assert (H2 : promises w1 = promises w) by done.
      assert (H3 : microtasks w1 = []) by done.
      assert (H4 : timers w1 = []) by done.
      assert (H5 : frames w1 = frames w) by done.
      clearbody w1.
      unfold done, clear_job. rewrite H1. cbn [job].
      set (w2 := alter_loop _ l _).
      assert (G1 : loops w2 !! l = Some (MkLoop None
                     (EachHandle items (S j) (FindBody condition fr))
                     None p i)).
      { subst w2. cbn [loops alter_loop set_loops clearTimeout set_timers].
        by rewrite list_lookup_alter_eq, H1. }
      assert (G2 : promises w2 = promises w) by done.
      assert (G3 : microtasks w2 = []) by done.
      assert (G4 : timers w2 = []) by (subst w2; simpl; by rewrite H4).
      assert (G5 : frames w2 = frames w) by done.
      clearbody w2.
      unfold deferred_settle. rewrite G1. cbn [promise].
      unfold settle at 1.
      rewrite G2, Hp, G3. cbn [map job_of app].
      unfold step.
      cbn [microtasks set_microtasks run_job].
      unfold find_callback. cbn [frames set_microtasks set_promises].
      rewrite G5, Hf. cbn [resolved target resolve_with].
      apply frame_settle with (A := fun _ => False).
      unfold state_of, settle.
      cbn [promises set_microtasks set_promises].
      rewrite list_lookup_insert_ne, HP by done.
      cbn [promises set_microtasks set_promises].
      rewrite list_lookup_insert_eq by (by rewrite length_insert).
      done.
Qed.

Lemma first_match_ge (condition : value -> nat -> U -> U * value) :
  forall items i u x k,
  first_match condition items i u = Some (x, k) -> i <= k.
Proof.
  induction items as [|y items IH]; intros i u x k H; [done|].
  simpl in H. destruct (condition y i u) as [u' v].
  destruct (truthy v).
  - injection H as _ <-. lia.
  - apply IH in H. lia.
Qed.

Lemma find_live_run l P p d fr
    (condition : value -> nat -> U -> U * value) : forall rest seen t i w,
  rest ≠ [] ->
  find_live l P p d fr t (seen ++ rest) (length seen) condition i w ->
  match first_match condition rest (length seen) (ustate w) with
  | Some (x, k) =>
      state_of P (run (S (k - length seen)) w) = Some (Fulfilled (found x k))
  | None =>
      state_of P (run (S (length rest)) w) = Some (Rejected VNull)
  end.
Proof.
  induction rest as [|x rest IH]; intros seen t i w Hne Hlive; [done|].
  pose proof (find_live_step _ _ _ _ _ _ _ _ _ _ _ x Hlive) as Hstep.
  rewrite list_lookup_middle in Hstep by done. specialize (Hstep eq_refl).
  simpl. destruct (condition x (length seen) (ustate w)) as [u' v].
  destruct (truthy v).
  - by rewrite Nat.sub_diag.
  - destruct (decide (S (length seen) < length (seen ++ x :: rest)))
      as [Hlt|Hge].
    + destruct Hstep as [Hnext Hu].
      assert (Hrest : rest ≠ []).
      { intros ->. rewrite length_app in Hlt. simpl in Hlt. lia. }
      replace (seen ++ x :: rest) with ((seen ++ [x]) ++ rest) in Hnext
        by (by rewrite <- app_assoc).
      replace (S (length seen)) with (length (seen ++ [x])) in Hnext
        by (rewrite length_app; simpl; lia).
      specialize (IH _ _ _ _ Hrest Hnext).
      rewrite Hu, length_app in IH. simpl in IH.
      rewrite Nat.add_1_r in IH.
      destruct (first_match condition rest (S (length seen)) u')
        as [[y k]|] eqn:Hfm; [|exact IH].
      apply first_match_ge in Hfm.
      replace (k - length seen) with (S (k - S (length seen))) by lia.
      exact IH.
    + assert (rest = []) as ->.
      { destruct rest; [done|]. rewrite length_app in Hge. simpl in Hge. lia. }
      exact Hstep.
Qed.

(** On a list that is not empty, [find] fulfils with the first item, in
    the order of the indices, for which [condition] returns a truthy
    value, and with its index; when there is none it rejects with
    [null]. *)
Theorem find_first_match (condition : value -> nat -> U -> U * value)
    (items : list value) (u : U) :
  items ≠ [] ->
  let '(P, l, w) := find items condition (init u) in
  match first_match condition items 0 u with
  | Some (x, k) =>
      forall n, k < n -> state_of P (run n w) = Some (Fulfilled (found x k))
  | None =>
      forall n, length items < n ->
        state_of P (run n w) = Some (Rejected VNull)
  end.
Proof.
  intros Hne.
  set (r := find items condition (init u)).
  assert (Hlive : find_live 0 r.1.1 1 2 0 1 ([] ++ items) (length (@nil value))
                    condition 1 r.2) by (by repeat split).
  assert (Hu : ustate r.2 = u) by reflexivity.
  clearbody r. destruct r as [[P l] w]. cbn [fst snd] in Hlive, Hu.
  pose proof (find_live_run 0 P 1 2 0 condition items [] 1 1 w Hne Hlive) as H.
  rewrite Hu in H. cbn [length] in H.
  destruct (first_match condition items 0 u) as [[x k]|].
  - rewrite Nat.sub_0_r in H. intros n Hn.
    replace n with (S k + (n - S k)) by lia. rewrite run_add.
    apply settled_run. exact H.
  - intros n Hn.
    replace n with (S (length items) + (n - S (length items))) by lia.
    rewrite run_add. apply settled_run. exact H.
Qed.

(** C4. [List([]).each(handle)] does fulfil its promise, on the first
    tick of its Loop, but that tick calls [handle] once, with
    [undefined] as the item and [0] as the index: the body of the Loop
    runs before the index is compared with the length. *)
Theorem each_empty_calls_handle (g : value -> nat -> U -> U) (u : U) :
  let handle := EachUser (fun item index u' => (g item index u', [])) in
  let '(l, p, w) := each [] handle (init u) in
  trace w = [] ∧
  trace (step w) = [EvHandle l; EvItem l VUndefined 0] ∧
  ustate (step w) = g VUndefined 0 u ∧
  state_of p (step w) = Some (Fulfilled VUndefined) ∧
  quiescent (step w).
Proof. repeat split. Qed.

End ListFacts.


(** C5. [find] does fulfil with the first match, and [this.done()] is
    called then, but the Loop is not stopped by it: in
    [List([1,2,3]).find(x => x === 1)] the match is found on the first
    tick and the condition is still called on the items at indices 1
    and 2. And on the empty list the condition is called on
    [undefined], so that [List([]).find(() => true)] fulfils with
    [{item: undefined, index: 0}] where no element exists. *)
Theorem find_goes_on_after_match :
  (let '(P, l, w) := find [VNum 1; VNum 2; VNum 3] is_one (init tt) in
   state_of P (run 1 w) =
     Some (Fulfilled (VObj [("item", VNum 1); ("index", VNum 0)])) ∧
   (fun L => (state_of (promise L) (run 1 w), job L))
     <$> loops (run 1 w) !! l =
     Some (Some (Fulfilled VUndefined), Some 2) ∧
   trace (run 1 w) = [EvHandle l; EvItem l (VNum 1) 0] ∧
   timers (run 1 w) = [(2, TWait l)] ∧
   forall n, 4 <= n ->
     trace (run n w) =
       [EvHandle l; EvItem l (VNum 1) 0;
        EvHandle l; EvItem l (VNum 2) 1;
        EvHandle l; EvItem l (VNum 3) 2]) ∧
  (let '(P, l, w) := find [] always (init tt) in
   forall n, 1 <= n ->
     state_of P (run n w) =
       Some (Fulfilled (VObj [("item", VUndefined); ("index", VNum 0)]))).
Proof.
  split.
  - vm_compute find. repeat split.
    intros n Hn. rewrite (run_from 4 n); done.
  - vm_compute find. intros n Hn.
    replace n with (1 + (n - 1)) by lia. rewrite run_add.
    by apply settled_run.
Qed.

(** ** Thread *)

Module ThreadFacts.
Import Thread.


Lemma exec_posts_request (params : option (list value)) (st : state) k W :
  worker st = Some k ->
  workers st !! k = Some W ->
  running W = true ->
  exists st',
    exec AsyncUtils params st = Ok st' ∧
    inbox <$> workers st' !! k =
      Some (inbox W ++ [Message "exec" (VArr (default [] params))]) ∧
    promise st' = Some (length (promises st)) ∧
    deferred st' = promise st' ∧
    state_of (promise st') st' = None.
Proof.
  intros Hw HW Hr. unfold exec. simpl. rewrite Hw. eexists. split; [done|].
  simpl. unfold postMessage. simpl.
  rewrite !list_lookup_alter_eq, HW. simpl. rewrite Hr. simpl.
  repeat split. by rewrite list_lookup_middle.
Qed.



Lemma terminate_rejects_pending (src : source) (h : thread_handle)
    (params : option (list value)) :
  exists st st',
    started_exec src h params = Ok st ∧
    terminate st = Ok st' ∧
    worker st' = None ∧ url st' = None ∧ urls st' = [] ∧
    running <$> workers st' !! 0 = Some false ∧
    state_of (promise st') st' = Some (Rejected (VStr "Terminated")).
Proof. eexists _, _. by repeat split. Qed.

(** C7. [terminate()] on a Thread whose [exec] is pending stops the
    worker, revokes the object URL, nulls both and rejects the promise
    with ["Terminated"]. On a Thread that was started and never asked
    to [exec], [this.deferred] is still [null]: the worker is stopped,
    the URL revoked and both are nulled, and then
    [this.deferred.reject] throws a TypeError. [start()] on a started
    Thread goes through [terminate()] and throws likewise. *)
Theorem terminate_without_exec_throws (src : source) (h : thread_handle) :
  exists st st',
    start (new_Thread src h) = Ok st ∧
    deferred st = None ∧
    terminate st = Throw (TypeError "this.deferred is null") st' ∧
    worker st' = None ∧ url st' = None ∧ urls st' = [] ∧
    running <$> workers st' !! 0 = Some false ∧
    start st = Throw (TypeError "this.deferred is null") st'.
Proof. eexists _, _. by repeat split. Qed.

End ThreadFacts.

(** ** Thread, its calls in any order *)

Module ThreadCallsFacts.
Import Thread ThreadCalls.

Lemma tidy_new src h : tidy (new_Thread src h).
Proof. by repeat split. Qed.

Lemma tidy_settle p o st : tidy st -> tidy (settle p o st).
Proof. unfold settle. by repeat case_match. Qed.

Lemma tidy_terminate st : tidy st -> tidy (state_after (terminate st)).
Proof.
  intros Htidy. unfold terminate.
  destruct (worker st) as [k|] eqn:Hk; [|exact Htidy].
  destruct Htidy as (Hu & Hwu & Hr & Hc).
  assert (Ht : tidy (State (handle st) None None (promise st) (deferred st)
                 match url st with
                 | Some a => filter (fun b => b ≠ a) (urls st)
                 | None => urls st
                 end (next_url st)
                 (alter (set_running false) k (workers st))
                 (outbox st) (promises st))).
  { split; [|split; [done|split; [|done]]]; simpl.
    - rewrite Hu. destruct (url st) as [a|]; [|done].
      rewrite filter_cons_False by (intros ?; done). done.
    - intros k' W HW HrW.
      destruct (decide (k = k')) as [<-|Hne].
      + rewrite list_lookup_alter_eq in HW.
        destruct (workers st !! k); simplify_eq/=.
      + rewrite list_lookup_alter_ne in HW by done.
        specialize (Hr _ _ HW HrW). congruence. }
  simpl. destruct (deferred st); simpl; [by apply tidy_settle|done].
Qed.

Lemma terminate_nulls_worker st st' :
  terminate st = Ok st' -> worker st' = None.
Proof.
  unfold terminate. destruct (worker st); [|done]. simpl.
  destruct (deferred st); [|done]. intros [= <-].
  unfold settle. simpl. by repeat case_match.
Qed.

Lemma tidy_start st : tidy st -> tidy (state_after (start st)).
Proof.
  intros Ht. unfold start.
  assert (Hfresh : forall st', tidy st' -> worker st' = None ->
            tidy (State (handle st') (Some (next_url st'))
                    (Some (length (workers st'))) (promise st') (deferred st')
                    (urls st' ++ [next_url st']) (S (next_url st'))
                    (workers st' ++ [MkWorker (handle st') [] true false])
                    (outbox st') (promises st'))).
  { intros st' (Hu & Hwu & Hr & Hc) Hw.
    split; [|split; [done|split]]; simpl.
    - rewrite Hu. by rewrite (proj1 Hwu Hw).
    - intros k W HW HrW. apply lookup_app_Some in HW as [HW|[Hk HW]].
      + specialize (Hr _ _ HW HrW). congruence.
      + f_equal. apply list_lookup_singleton_Some in HW as [HW _]. lia.
    - intros k [= <-]. by rewrite list_lookup_middle. }
  destruct (worker st) as [k|] eqn:Hk.
  - pose proof (tidy_terminate st Ht) as Ht'.
    destruct (terminate st) as [st'|e st'] eqn:He; simpl in *; [|done].
    apply Hfresh; [done|]. by eapply terminate_nulls_worker.
  - simpl. by apply Hfresh.
Qed.

Lemma tidy_exec src params st : tidy st -> tidy (state_after (exec src params st)).
Proof.
  intros (Hu & Hwu & Hr & Hc). unfold exec. simpl.
  destruct (worker st) as [k|] eqn:Hk; simpl.
  - unfold postMessage. simpl.
    split; [done|]. split; [done|]. simpl. split.
    + intros k' W.
      destruct (decide (k = k')) as [<-|Hne]; [done|].
      rewrite !list_lookup_alter_ne by done. apply Hr.
    + intros k' [= <-]. rewrite !list_lookup_alter_eq.
      specialize (Hc _ eq_refl). destruct (workers st !! k) as [W|]; [|done].
      simpl in *. injection Hc as Hc. rewrite Hc. simpl. by rewrite Hc.
  - by split.
Qed.

Lemma tidy_worker_step k st : tidy st -> tidy (worker_step k st).
Proof.
  intros (Hu & Hwu & Hr & Hc). unfold worker_step.
  destruct (workers st !! k) as [W|] eqn:HW; [|done].
  destruct (running W) eqn:HrW; [|done].
  destruct (inbox W) as [|m ms]; [done|].
  assert (Ht : tidy (set_workers (<[k:=set_inbox ms W]> (workers st)) st)).
  { split; [done|]. split; [done|]. simpl. split.
    - intros k' W' HW' HrW'.
      destruct (decide (k = k')) as [<-|Hne]; [by eapply Hr|].
      rewrite list_lookup_insert_ne in HW' by done. by eapply Hr.
    - intros k' Hk'. specialize (Hc _ Hk').
      destruct (decide (k = k')) as [<-|Hne].
      + rewrite list_lookup_insert_eq by eauto using lookup_lt_Some.
        simpl. by rewrite HrW.
      + by rewrite list_lookup_insert_ne. }
  by destruct (Template W m).
Qed.

Lemma tidy_main_step st : tidy st -> tidy (state_after (main_step st)).
Proof.
  intros Ht. unfold main_step.
  destruct (outbox st) as [|[k m] rest]; [done|].
  assert (Ht' : tidy (set_outbox rest st)) by done.
  simpl. destruct (workers st !! k) as [W|]; [|done].
  destruct (running W && onmessage W); [|done].
  unfold on_response. simpl.
  repeat case_match; simpl; try done; by apply tidy_settle.
Qed.

(** However [start], [exec] and [terminate] are called, in any order
    and any number of times, between any turns of the workers and of
    the main thread, and also after one of them has thrown: no object
    URL other than [this.url] is live, no worker other than
    [this.worker] is running, and [this.worker] is running. *)
Theorem thread_stays_tidy (src : source) (h : thread_handle)
    (cs : list call) :
  tidy (perform_all src cs (new_Thread src h)).
Proof.
  unfold perform_all.
  assert (H : forall st, tidy st ->
            tidy (foldl (fun st c => state_after (perform src c st)) st cs)).
  { induction cs as [|c cs IH]; intros st Ht; [done|].
    simpl. apply IH. destruct c; simpl.
    - by apply tidy_start.
    - by apply tidy_exec.
    - by apply tidy_terminate.
    - by apply tidy_worker_step.
    - by apply tidy_main_step. }
  apply H, tidy_new.
Qed.




(** [start()] on a Thread that has a worker and never ran [exec]
    throws: the [terminate] it calls first stops the worker, revokes
    the object URL and nulls both fields, and then fails on
    [this.deferred]; no new worker is created. *)
Theorem start_again_before_exec_throws (st : state) (k : nat) :
  worker st = Some k ->
  deferred st = None ->
  exists st',
    start st = Throw (TypeError "this.deferred is null") st' ∧
    worker st' = None ∧ url st' = None ∧
    length (workers st') = length (workers st) ∧
    running <$> workers st' !! k = (fun _ => false) <$> workers st !! k ∧
    promises st' = promises st.
Proof.
  intros Hw Hd. unfold start, terminate. rewrite Hw. simpl. rewrite Hd.
  eexists. split; [reflexivity|]. simpl.
  rewrite length_alter, list_lookup_alter_eq.
  repeat split. by destruct (workers st !! k).
Qed.

End ThreadCallsFacts.

(** ** Handles that call methods of their Loop *)

Section LoopGoesOn.
Context {U : Type}.
Implicit Types (w : world U) (f : U -> handle_result U).

Lemma inside_this_call l p f mx i s c w :
  inside l p f mx i s w ->
  inside l p f mx i (requested s [c]) (run_this_call l c w) ∧
  ustate (run_this_call l c w) = ustate w ∧
  trace (run_this_call l c w) = trace w ∧
  next_timer (run_this_call l c w) = next_timer w.
Proof.
  intros ([j Hl] & Ht & Hm & Hp). rewrite this_call_unfold.
  assert (Hc : inside l p f mx i s (clear_job l w) ∧
               ustate (clear_job l w) = ustate w ∧
               trace (clear_job l w) = trace w ∧
               next_timer (clear_job l w) = next_timer w).
  { unfold clear_job. rewrite Hl. destruct j as [t|]; simpl.
    - unfold inside. simpl. rewrite list_lookup_alter_eq, Hl, Ht. simpl.
      repeat split; eauto.
    - unfold inside. repeat split; eauto. }
  destruct Hc as (([j' Hl'] & Ht' & Hm' & Hp') & Hu & Htr & Hn).
  unfold deferred_settle. rewrite Hl'. simpl. unfold settle. rewrite Hp'.
  destruct s as [o|]; simpl.
  - unfold inside. repeat split; eauto.
  - unfold inside. simpl. rewrite Hm'.
    rewrite list_lookup_insert_eq by eauto using lookup_lt_Some.
    repeat split; eauto.
Qed.


Lemma requested_app s cs1 cs2 :
  requested (requested s cs1) cs2 = requested s (cs1 ++ cs2).
Proof. by destruct s, cs1. Qed.

Lemma inside_this_calls l p f mx i cs : forall s w,
  inside l p f mx i s w ->
  inside l p f mx i (requested s cs) (run_this_calls l cs w) ∧
  ustate (run_this_calls l cs w) = ustate w ∧
  trace (run_this_calls l cs w) = trace w ∧
  next_timer (run_this_calls l cs w) = next_timer w.
Proof.
  induction cs as [|c cs IH]; intros s w Hin.
  - simpl. by destruct s.
  - destruct (inside_this_call _ _ _ _ _ _ c _ Hin) as (Hin1 & Hu & Htr & Hn).
    destruct (IH _ _ Hin1) as (Hin2 & Hu2 & Htr2 & Hn2).
    change (run_this_calls l (c :: cs) w)
      with (run_this_calls l cs (run_this_call l c w)).
    rewrite requested_app in Hin2. simpl in Hin2.
    rewrite Hu2, Htr2, Hn2. done.
Qed.

(** A tick on which the handle returns a falsy value and the bound is
    not reached: whatever the handle asked of its Loop, the next tick
    is scheduled. *)
Lemma ticking_continue l p t f mx i s w :
  ticking l p t f mx i s w ->
  truthy (h_return (f (ustate w))) = false ->
  max_reached (MkLoop mx (UserHandle f) (Some t) p i) = false ->
  ticking l p (next_timer w) f mx (i + 1)
          (requested s (h_calls (f (ustate w)))) (step w) ∧
  ustate (step w) = h_state (f (ustate w)) ∧
  trace (step w) = trace w ++ [EvHandle l].
Proof.
  intros (Hl & Ht & Hm & Hp) Hr Hx.
  rewrite (step_tick w t l []) by done. rewrite wait_unfold.
  unfold call_handle. simpl. rewrite Hl. simpl.
  set (w1 := set_ustate _ _).
  assert (Hin : inside l p f mx i s w1).
  { unfold inside. subst w1. simpl. eauto. }
  destruct (inside_this_calls _ _ _ _ _ (h_calls (f (ustate w))) _ _ Hin)
    as (([j Hl2] & Ht2 & Hm2 & Hp2) & Hu2 & Htr2 & Hn2).
  unfold wait_rest. rewrite Hr, Hl2.
  replace (max_reached _) with false by (symmetry; exact Hx).
  unfold ticking. simpl. rewrite !list_lookup_alter_eq, Hl2, Ht2, Hn2. simpl.
  repeat split; done.
Qed.


(** A tick on which the handle returns a truthy value: [done] is
    called after whatever the handle asked of its Loop, and nothing is
    scheduled. *)
Lemma ticking_done l p t f mx i s w :
  ticking l p t f mx i s w ->
  truthy (h_return (f (ustate w))) = true ->
  quiescent (step w) ∧
  state_of p (step w) =
    requested s (h_calls (f (ustate w)) ++ [CallDone]) ∧
  ustate (step w) = h_state (f (ustate w)) ∧
  trace (step w) = trace w ++ [EvHandle l].
Proof.
  intros (Hl & Ht & Hm & Hp) Hr.
  rewrite (step_tick w t l []) by done. rewrite wait_unfold.
  unfold call_handle. simpl. rewrite Hl. simpl.
  set (w1 := set_ustate _ _).
  assert (Hin : inside l p f mx i s w1).
  { unfold inside. subst w1. simpl. eauto. }
  destruct (inside_this_calls _ _ _ _ _
              (h_calls (f (ustate w)) ++ [CallDone]) _ _ Hin)
    as ((_ & Ht2 & Hm2 & Hp2) & Hu2 & Htr2 & _).
  unfold wait_rest. rewrite Hr.
  change (done l ?w') with (run_this_calls l [CallDone] w').
  unfold run_this_calls in *. rewrite <- foldl_app.
  unfold quiescent, state_of. rewrite Ht2, Hm2, Hp2, Hu2, Htr2. done.
Qed.

Lemma ticking_state l p t f mx i s w :
  ticking l p t f mx i s w -> state_of p w = s.
Proof. intros (_ & _ & _ & Hp). unfold state_of. by rewrite Hp. Qed.

Lemma first_request_S f (j : nat) : forall u,
  first_request f (S j) u =
  requested (first_request f j u) (h_calls (f (iter_state f j u))).
Proof.
  induction j as [|j IH]; intros u.
  - unfold iter_state. simpl. by destruct (h_calls (f u)).
  - change (first_request f (S (S j)) u)
      with (match h_calls (f u) with
            | c :: _ => Some (outcome_of c)
            | [] => first_request f (S j) (h_state (f u))
            end).
    rewrite IH. unfold iter_state. simpl. by destruct (h_calls (f u)).
Qed.

(** [j] ticks in a row on which the handle returns a falsy value and
    the bound is not reached. *)
Lemma ticking_run l p f mx : forall (j : nat) t i w,
  ticking l p t f mx i None w ->
  (forall j', j' < j ->
     truthy (h_return (f (iter_state f j' (ustate w)))) = false) ->
  (forall j', j' < j -> mx ≠ Some (i + Z.of_nat j')%Z) ->
  (exists t', ticking l p t' f mx (i + Z.of_nat j)
                      (first_request f j (ustate w)) (run j w)) ∧
  ustate (run j w) = iter_state f j (ustate w) ∧
  trace (run j w) = trace w ++ replicate j (EvHandle l).
Proof.
  induction j as [|j IH]; intros t i w Hlive Hr Hx.
  - simpl. rewrite Z.add_0_r, app_nil_r. eauto.
  - destruct (IH t i w Hlive) as ([t' Hl] & Hu & Htr).
    { intros. apply Hr. lia. }
    { intros. apply Hx. lia. }
    assert (Hrun : run (S j) w = step (run j w)).
    { replace (S j) with (j + 1) by lia. by rewrite run_add. }
    rewrite Hrun. clear Hrun.
    destruct (ticking_continue _ _ _ _ _ _ _ _ Hl) as (Hl' & Hu' & Htr').
    { rewrite Hu. apply Hr. lia. }
    { unfold max_reached. simpl. destruct mx as [m|]; [|done].
      apply andb_false_intro2. apply Z.eqb_neq. intros <-.
      by apply (Hx j ltac:(lia)). }
    rewrite Hu in Hl', Hu'. rewrite <- first_request_S in Hl'.
    replace (i + Z.of_nat j + 1)%Z with (i + Z.of_nat (S j))%Z in Hl' by lia.
    split; [eauto|]. split.
    + rewrite Hu'. unfold iter_state. clear. generalize (ustate w).
      induction j as [|j IH]; intros u; [done|]. simpl. apply IH.
    + rewrite Htr', Htr, <- app_assoc.
      change [EvHandle l] with (replicate 1 (EvHandle l)).
      rewrite <- replicate_add. by replace (j + 1) with (S j) by lia.
Qed.


(** A handle that never returns a truthy value, under a bound that is
    absent, zero or negative, is called on every turn of the event
    loop, for ever. What it asks of its Loop ([this.done()],
    [this.cancel()], ...) settles the promise, the first request
    winning, and does not stop the Loop. *)
Theorem falsy_handle_never_stops (f : U -> handle_result U)
    (iterations : option Z) (u : U) :
  (forall u', truthy (h_return (f u')) = false) ->
  match iterations with Some n => (n <= 0)%Z | None => True end ->
  let '(l, p, w) := until (UserHandle f) iterations (init u) in
  forall j,
    invocations l (run j w) = j ∧
    state_of p (run j w) = first_request f j u ∧
    ustate (run j w) = iter_state f j u.
Proof.
  intros Hr Hb.
  destruct (until_live f iterations (init u)) as (Hlive & Hlp & Hu0 & Htr0);
    [done|].
  destruct (until (UserHandle f) iterations (init u)) as [[l p] w].
  simpl in Hlive, Hlp, Hu0, Htr0. injection Hlp as -> ->.
  intros j.
  destruct (ticking_run 0 0 f (or_null iterations) j 1 1 w Hlive)
    as ([t' Hl] & Hu & Htr).
  { intros. apply Hr. }
  { intros j' _. destruct iterations as [[| |]|]; simpl; try done; try lia.
    intros [=]. lia. }
  rewrite Hu0 in Hl, Hu. rewrite Htr0 in Htr.
  split; [|split; [|done]].
  - by rewrite (invocations_replicate _ _ _ _ Htr).
  - eauto using ticking_state.
Qed.

(** When the [k]-th call of the handle is the first to return a truthy
    value, and the bound is absent, not positive or at least [k], the
    Loop makes exactly [k] calls. Its promise holds the first
    settlement that was asked for: by a method the handle called on
    its Loop during one of these calls, or else by the [done] that
    follows the [k]-th call. *)
Theorem until_keeps_first_settlement (f : U -> handle_result U)
    (iterations : option Z) (k : nat) (u : U) :
  1 <= k ->
  (forall j, j < k - 1 ->
     truthy (h_return (f (iter_state f j u))) = false) ->
  truthy (h_return (f (iter_state f (k - 1) u))) = true ->
  match iterations with
  | Some n => (n <= 0 ∨ Z.of_nat k <= n)%Z
  | None => True
  end ->
  let '(l, p, w) := until (UserHandle f) iterations (init u) in
  (forall j, j < k ->
     state_of p (run j w) = first_request f j u ∧
     invocations l (run j w) = j) ∧
  (forall j, k <= j ->
     state_of p (run j w) = requested (first_request f k u) [CallDone] ∧
     invocations l (run j w) = k ∧
     ustate (run j w) = iter_state f k u).
Proof.
  intros Hk Hf Ht Hb.
  destruct (until_live f iterations (init u)) as (Hlive & Hlp & Hu0 & Htr0);
    [done|].
  destruct (until (UserHandle f) iterations (init u)) as [[l p] w].
  simpl in Hlive, Hlp, Hu0, Htr0. injection Hlp as -> ->.
  assert (Hrun : forall j, j < k ->
            (exists t', ticking 0 0 t' f (or_null iterations)
                                (1 + Z.of_nat j) (first_request f j u)
                                (run j w)) ∧
            ustate (run j w) = iter_state f j u ∧
            trace (run j w) = [] ++ replicate j (EvHandle 0)).
  { intros j Hj.
    destruct (ticking_run 0 0 f (or_null iterations) j 1 1 w Hlive)
      as (Hl & Hu & Htr).
    - intros j' Hj'. rewrite Hu0. apply Hf. lia.
    - intros j' Hj'. destruct iterations as [[| |]|]; simpl; try done.
      all: intros [=]; lia.
    - by rewrite Hu0 in Hl, Hu; rewrite Htr0 in Htr. }
  split.
  - intros j Hj. destruct (Hrun j Hj) as ([t' Hl] & _ & Htr). split.
    + eauto using ticking_state.
    + by rewrite (invocations_replicate _ _ _ _ Htr).
  - intros j Hj.
    destruct (Hrun (k - 1)) as ([t' Hl] & Hu & Htr); [lia|].
    destruct (ticking_done _ _ _ _ _ _ _ _ Hl) as (Hq & Hs & Hu' & Htr').
    { by rewrite Hu. }
    replace j with (k - 1 + (1 + (j - k))) by lia.
    rewrite run_add. simpl. rewrite run_quiescent by done.
    rewrite Hs, Hu', Hu, <- requested_app, <- first_request_S.
    replace (S (k - 1)) with k by lia.
    split; [done|]. split.
    + rewrite Htr, <- app_assoc in Htr'.
      change ([EvHandle 0]) with (replicate 1 (EvHandle 0)) in Htr'.
      rewrite <- replicate_add in Htr'.
      rewrite (invocations_replicate _ _ _ _ Htr'). simpl. lia.
    + clear -Hk. unfold iter_state. destruct k as [|k]; [lia|].
      replace (S k - 1) with k by lia. generalize u.
      induction k as [|k IH]; intros u'; [done|]. simpl. apply (IH ltac:(lia)).
Qed.

End LoopGoesOn.

(** ** Unique loops, at any point of a program *)

Section UniqueAnywhere.
Context {U : Type}.
Implicit Types (w : world U).







End UniqueAnywhere.

(** ** If: returned proxies and else-if chains *)

Section ForkMore.
Context {U : Type}.
Implicit Types (w : world U).

Lemma If_else_if_init (condition hT hE h3 h4 : U -> U * value) u :
  If_else_if condition hT hE h3 h4 (init u) =
  (0, 1, 2, else_if_world condition hT hE h3 h4 u).
Proof. reflexivity. Qed.

(** The reaction job of a proxy whose handles return plain values. *)
Lemma fork_job x v d js p hT hE d' rs w :
  microtasks w = JRun (KFork x) v d :: js ->
  proxies w !! x = Some (MkProxy p (plain hT) (plain hE) d') ->
  promises w !! d = Some (PromiseCell None rs) ->
  step w =
    World (branch hT hE v (ustate w)).1 (timers w) (next_timer w)
          (js ++ map (job_of (Fulfilled (branch hT hE v (ustate w)).2)) rs)
          (<[d := PromiseCell (Some (Fulfilled (branch hT hE v (ustate w)).2))
                              []]> (promises w))
          (loops w) (loopMap w) (proxies w) (frames w)
          (trace w ++ branch_events x v).
Proof.
  intros Hm Hx Hd. unfold step. rewrite Hm. unfold run_job, fork_callback.
  cbn [proxies set_microtasks]. rewrite Hx.
  destruct v as [| |[|]| | | |]; cbn [thenHandle elseHandle plain];
    cbn; unfold settle; cbn; rewrite Hd; cbn; rewrite ?app_nil_r;
    reflexivity.
Qed.


Lemma EvThen_branch_events x y v :
  EvThen x ∈ branch_events y v <-> x = y ∧ v = VBool true.
Proof.
  destruct v as [| |[|]| | | |]; simpl;
    rewrite ?list_elem_of_singleton, ?elem_of_nil;
    (split; [intros H|intros [H1 H2]]); simplify_eq; done.
Qed.

Lemma EvElse_branch_events x y v :
  EvElse x ∈ branch_events y v <-> x = y ∧ v = VBool false.
Proof.
  destruct v as [| |[|]| | | |]; simpl;
    rewrite ?list_elem_of_singleton, ?elem_of_nil;
    (split; [intros H|intros [H1 H2]]); simplify_eq; done.
Qed.

Lemma branch_noop v (u : U) : (branch noop noop v u).1 = u.
Proof. by destruct v as [| |[|]| | | |]. Qed.

(** The four turns of the chain. *)
Lemma else_if_run (condition hT hE h3 h4 : U -> U * value) u :
  let w := else_if_world condition hT hE h3 h4 u in
  let r0 := condition u in
  let r1 := branch hT hE r0.2 r0.1 in
  let r2 := branch h3 h4 r1.2 r1.1 in
  let ps := [PromiseCell (Some (Fulfilled r0.2)) [];
             PromiseCell (Some (Fulfilled r1.2)) [];
             PromiseCell (Some (Fulfilled r2.2)) []] in
  let tr := [EvCondition] ++ branch_events 0 r0.2 ++ branch_events 1 r1.2 in
  run 3 w = World r2.1 [] 2 [JRun (KFork 2) r2.2 3]
              (ps ++ [PromiseCell None []]) [] ∅ (proxies w) [] tr ∧
  run 4 w = World r2.1 [] 2 []
              (ps ++ [PromiseCell
                        (Some (Fulfilled (branch noop noop r2.2 r2.1).2)) []])
              [] ∅ (proxies w) [] (tr ++ branch_events 2 r2.2).
Proof.
  intros w r0 r1 r2 ps tr.
  set (xs := proxies w).
  set (w1 := World r0.1 [] 2 [JRun (KFork 0) r0.2 1]
               [PromiseCell (Some (Fulfilled r0.2)) [];
                PromiseCell None [React (KFork 1) 2];
                PromiseCell None [React (KFork 2) 3];
                PromiseCell None []] [] ∅ xs [] [EvCondition]).
  assert (E1 : step w = w1).
  { unfold step. cbn. subst w1 r0. by destruct (condition u). }
  set (w2 := World r1.1 [] 2 [JRun (KFork 1) r1.2 2]
               [PromiseCell (Some (Fulfilled r0.2)) [];
                PromiseCell (Some (Fulfilled r1.2)) [];
                PromiseCell None [React (KFork 2) 3];
                PromiseCell None []] [] ∅ xs []
               ([EvCondition] ++ branch_events 0 r0.2)).
  assert (E2 : step w1 = w2).
  { by rewrite (fork_job 0 r0.2 1 [] 0 hT hE 1 [React (KFork 1) 2] w1). }
  set (w3 := World r2.1 [] 2 [JRun (KFork 2) r2.2 3]
               (ps ++ [PromiseCell None []]) [] ∅ xs [] tr).
  assert (E3 : step w2 = w3).
  { rewrite (fork_job 1 r1.2 2 [] 1 h3 h4 2 [React (KFork 2) 3] w2) by done.
    subst w3 tr. cbn [trace w2]. by rewrite <- app_assoc. }
  assert (E4 : step w3 =
               World r2.1 [] 2 []
                 (ps ++ [PromiseCell
                           (Some (Fulfilled (branch noop noop r2.2 r2.1).2))
                           []])
                 [] ∅ xs [] (tr ++ branch_events 2 r2.2)).
  { rewrite (fork_job 2 r2.2 3 [] 2 noop noop 3 [] w3) by done.
    cbn [ustate w3]. by rewrite branch_noop. }
  cbn [run]. rewrite E1, E2, E3. split; [done|]. by rewrite E4.
Qed.

(** [If(condition).then(hT).else(hE).then(h3).else(h4)] with handles
    that return plain values: the second pair of handles is an
    else-if on what the chosen handle of the first pair returned.
    [h3] is called when it returned [true], [h4] when it returned
    [false], neither otherwise, and the continuation of the second
    proxy is fulfilled with what the handle called returned. *)
Theorem else_if_acts_on_returned_boolean
    (condition hT hE h3 h4 : U -> U * value) (u : U) :
  let '(x0, x1, x2, w) := If_else_if condition hT hE h3 h4 (init u) in
  let r0 := condition u in
  let r1 := branch hT hE r0.2 r0.1 in
  let r2 := branch h3 h4 r1.2 r1.1 in
  exists X0 X1,
    proxies w !! x0 = Some X0 ∧ proxies w !! x1 = Some X1 ∧
    x_promise X1 = next X0 ∧
    forall n, 3 <= n ->
      state_of (next X0) (run n w) = Some (Fulfilled r1.2) ∧
      state_of (next X1) (run n w) = Some (Fulfilled r2.2) ∧
      ustate (run n w) = r2.1 ∧
      (EvThen x1 ∈ trace (run n w) <-> r1.2 = VBool true) ∧
      (EvElse x1 ∈ trace (run n w) <-> r1.2 = VBool false).
Proof.
  rewrite If_else_if_init. intros r0 r1 r2.
  eexists _, _. split; [reflexivity|]. split; [reflexivity|].
  split; [reflexivity|].
  destruct (else_if_run condition hT hE h3 h4 u) as [E3 E4].
  cbv zeta in E3, E4. fold r0 r1 r2 in E3, E4.
  intros n Hn.
  assert (En : run n (else_if_world condition hT hE h3 h4 u) =
                 run 3 (else_if_world condition hT hE h3 h4 u) ∨
               run n (else_if_world condition hT hE h3 h4 u) =
                 run 4 (else_if_world condition hT hE h3 h4 u)).
  { destruct (decide (n = 3)) as [->|Hne]; [by left|right].
    apply run_from; [by rewrite E4|lia]. }
  destruct En as [-> | ->]; [rewrite E3|rewrite E4];
    cbn [state_of promises ustate trace next proxies else_if_world lookup
         list_lookup app p_state];
    (split; [done|]); (split; [done|]); (split; [done|]);
    rewrite !elem_of_cons, !elem_of_app,
            !EvThen_branch_events, !EvElse_branch_events;
    split; split; try (intros ->; by eauto 6);
    intros H; decompose [and or] H; done.
Qed.

Lemma If_returning_proxy_init (c1 c2 hA : U -> U * value) u :
  If_returning_proxy c1 c2 hA (init u) = (1, 0, proxy_world c1 c2 hA u).
Proof. reflexivity. Qed.

Lemma If_returning_proxy_run (c1 c2 hA : U -> U * value) u u1 v2 u1' a u2 :
  c2 u = (u1, v2) ->
  branch hA noop v2 u1 = (u1', a) ->
  c1 u1' = (u2, VBool true) ->
  let w := proxy_world c1 c2 hA u in
  exists tr,
    let ps := [PromiseCell (Some (Fulfilled v2)) [];
               PromiseCell (Some (Fulfilled a)) [];
               PromiseCell (Some (Fulfilled (VBool true))) []] in
    run 5 w = World u2 [] 3 []
                (ps ++ [PromiseCell (Some (Fulfilled v2)) []]) [] ∅
                (proxies w) [] (tr ++ [EvCondition; EvThen 1]) ∧
    forall e, e ∈ tr -> e = EvCondition ∨ e = EvThen 0 ∨ e = EvElse 0.
Proof.
  intros H2 HA H1 w.
  set (xs := proxies w).
  set (w1 := World u1 [(2, TIfResolve c1 2)] 3 [JRun (KFork 0) v2 1]
               [PromiseCell (Some (Fulfilled v2)) [];
                PromiseCell None [];
                PromiseCell None [React (KFork 1) 3];
                PromiseCell None []] [] ∅ xs [] [EvCondition]).
  assert (E1 : step w = w1).
  { unfold step. cbn. rewrite H2. reflexivity. }
  assert (E2 : exists tr,
            step w1 = World u1' [(2, TIfResolve c1 2)] 3 []
                        [PromiseCell (Some (Fulfilled v2)) [];
                         PromiseCell (Some (Fulfilled a)) [];
                         PromiseCell None [React (KFork 1) 3];
                         PromiseCell None []] [] ∅ xs [] tr ∧
            forall e, e ∈ tr -> e = EvCondition ∨ e = EvThen 0 ∨ e = EvElse 0).
  { unfold step. cbn. unfold fork_callback. cbn.
    destruct v2 as [| |[|]| | | |]; cbn in HA |- *;
      try (injection HA as <- <-); [| |unfold plain; rewrite HA; cbn|..];
      eexists; (split; [reflexivity|]); intros e He;
      repeat (apply elem_of_cons in He as [->|He]; [by eauto|]);
      by apply elem_of_nil in He. }
  destruct E2 as (tr & E2 & Htr).
  exists tr. cbn [run]. rewrite E1, E2. clear E1 E2 w1.
  set (w3 := World u2 [] 3 [JRun (KFork 1) (VBool true) 3]
               [PromiseCell (Some (Fulfilled v2)) [];
                PromiseCell (Some (Fulfilled a)) [];
                PromiseCell (Some (Fulfilled (VBool true))) [];
                PromiseCell None []] [] ∅ xs [] (tr ++ [EvCondition])).
  assert (E3 : step (World u1' [(2, TIfResolve c1 2)] 3 []
                        [PromiseCell (Some (Fulfilled v2)) [];
                         PromiseCell (Some (Fulfilled a)) [];
                         PromiseCell None [React (KFork 1) 3];
                         PromiseCell None []] [] ∅ xs [] tr) = w3).
  { unfold step. cbn. rewrite H1. reflexivity. }
  rewrite E3. clear E3.
  set (w4 := World u2 [] 3 [JSettle 3 (Fulfilled v2)]
               [PromiseCell (Some (Fulfilled v2)) [];
                PromiseCell (Some (Fulfilled a)) [];
                PromiseCell (Some (Fulfilled (VBool true))) [];
                PromiseCell None []] [] ∅ xs []
               (tr ++ [EvCondition; EvThen 1])).
  assert (E4 : step w3 = w4).
  { unfold step. cbn. unfold fork_callback. cbn.
    subst w3 w4. unfold log, set_ustate, set_microtasks. cbn.
    by rewrite <- app_assoc. }
  rewrite E4. split; [reflexivity|]. exact Htr.
Qed.

(** When the then-handle of a proxy returns another proxy, the
    continuation [next] takes the outcome of the promise that proxy
    wraps: it is fulfilled with what the inner condition returned,
    whatever the handle of the inner proxy returned. *)
Theorem if_adopts_returned_proxy (c1 c2 hA : U -> U * value) (u : U) :
  (forall u', (c1 u').2 = VBool true) ->
  let '(x, y, w) := If_returning_proxy c1 c2 hA (init u) in
  exists X Y,
    proxies w !! x = Some X ∧ proxies w !! y = Some Y ∧
    forall n, 5 <= n ->
      state_of (x_promise Y) (run n w) = Some (Fulfilled (c2 u).2) ∧
      state_of (next Y) (run n w) =
        Some (Fulfilled (branch hA noop (c2 u).2 (c2 u).1).2) ∧
      state_of (next X) (run n w) = Some (Fulfilled (c2 u).2) ∧
      EvThen x ∈ trace (run n w) ∧ EvElse x ∉ trace (run n w).
Proof.
  intros Hc1. rewrite If_returning_proxy_init.
  eexists _, _. split; [reflexivity|]. split; [reflexivity|].
  destruct (c2 u) as [u1 v2] eqn:H2.
  destruct (branch hA noop v2 u1) as [u1' a] eqn:HA.
  destruct (c1 u1') as [u2 v1] eqn:H1.
  pose proof (Hc1 u1') as Hv. rewrite H1 in Hv. simpl in Hv. subst v1.
  destruct (If_returning_proxy_run c1 c2 hA u u1 v2 u1' a u2 H2 HA H1)
    as (tr & E5 & Htr).
  cbv zeta in E5.
  intros n Hn. rewrite (run_from 5 n); [|by rewrite E5|done].
  rewrite E5. cbn -[elem_of].
  split; [done|]. split; [by rewrite HA|]. split; [done|]. split.
  - apply elem_of_app. right. apply elem_of_cons. right.
    apply list_elem_of_here.
  - intros [He|He]%elem_of_app.
    + by destruct (Htr _ He) as [?|[?|?]].
    + repeat (apply elem_of_cons in He as [?|He]; [done|]).
      by apply elem_of_nil in He.
Qed.

End ForkMore.

(** ** List: [map] and [filter] *)

Module ListHandlerFacts.
Import ListHandler.

Section EachBystander.
Context {U : Type}.

(** A promise other than that of the Loop is left alone by a tick of
    [each]. *)
Lemma each_live_step_other l p t items j (g : value -> nat -> U -> U) i
    (w : world U) q :
  each_live l p t items j (visitor g) i w ->
  q ≠ p ->
  promises (step w) !! q = promises w !! q.
Proof.
  intros (Hl & Ht & Hm & Hp) Hq.
  rewrite (step_tick w t l [] Hm Ht), wait_unfold.
  rewrite (call_handle_each (set_timers [] w) l _ items j (visitor g) Hl
             eq_refl).
  cbn [fst snd]. unfold wait_rest. cbn [truthy].
  set (w1 := alter_loop _ l _).
  assert (H1 : loops w1 !! l =
               Some (MkLoop None (EachHandle items (S j) (visitor g))
                            (Some t) p i)).
  { subst w1. unfold visitor. simpl. by rewrite list_lookup_alter_eq, Hl. }
  assert (H2 : promises w1 = promises w) by done.
  clearbody w1.
  destruct (Z.of_nat (length items) - 1 <? Z.of_nat (S j))%Z.
  - unfold done, clear_job. rewrite H1. cbn [job].
    unfold deferred_settle. simpl. rewrite list_lookup_alter_eq, H1. simpl.
    unfold settle. simpl. rewrite H2, Hp. simpl.
    by rewrite list_lookup_insert_ne.
  - rewrite H1. simpl. by rewrite H2.
Qed.

Lemma each_other_run (g : value -> nat -> U -> U) l p q :
  q ≠ p ->
  forall rest seen t i (w : world U),
  rest ≠ [] ->
  each_live l p t (seen ++ rest) (length seen) (visitor g) i w ->
  forall n, n <= length rest -> promises (run n w) !! q = promises w !! q.
Proof.
  intros Hq. induction rest as [|x rest IH]; intros seen t i w Hne Hlive n Hn;
    [done|].
  destruct n as [|n]; [done|]. simpl.
  pose proof (each_live_step_other _ _ _ _ _ _ _ _ q Hlive Hq) as Hstep.
  destruct (each_live_step _ _ _ _ _ _ _ _ x Hlive) as (_ & _ & Hnext).
  { by rewrite list_lookup_middle. }
  destruct (decide (S (length seen) < length (seen ++ x :: rest)))
    as [Hlt|Hge].
  - assert (Hrest : rest ≠ []).
    { intros ->. rewrite length_app in Hlt. simpl in Hlt. lia. }
    replace (seen ++ x :: rest) with ((seen ++ [x]) ++ rest) in Hnext
      by (by rewrite <- app_assoc).
    replace (S (length seen)) with (length (seen ++ [x])) in Hnext
      by (rewrite length_app; simpl; lia).
    rewrite (IH _ _ _ _ Hrest Hnext) by (simpl in Hn; lia). done.
  - assert (rest = []) as ->.
    { destruct rest; [done|]. rewrite length_app in Hge. simpl in Hge. lia. }
    simpl in Hn. replace n with 0 by lia. done.
Qed.

End EachBystander.

Section CollectRun.
Context {U : Type}.

Lemma array_set_end (x : value) (xs : list value) :
  array_set (length xs) x xs = xs ++ [x].
Proof.
  unfold array_set. rewrite decide_False by lia.
  by rewrite Nat.sub_diag.
Qed.


Lemma collect_init (g : value -> nat -> U * collector -> U * collector)
    (items : list value) (u : U) (c0 : collector) :
  collect items g (init (u, c0)) =
  (0, 0, 1,
   World (u, Collector 0 []) [(1, TWait 0)] 2 []
         [PromiseCell None []; PromiseCell None []]
         [MkLoop None (EachHandle items 0 (visitor g)) (Some 1) 1 1]
         ∅ [] [] []).
Proof. reflexivity. Qed.

(** The Loop that [map] and [filter] start, on any list: it visits the
    items [each] visits, one per turn, and leaves the promise that was
    returned to the caller pending. *)
Lemma collect_run (g : value -> nat -> U * collector -> U * collector)
    (items : list value) (u : U) (c0 : collector) :
  let '(P, l, p, w) := collect items g (init (u, c0)) in
  let n := length (visited items) in
  (forall j, j < n -> state_of p (run j w) = None) ∧
  (forall j, j <= n -> promises (run j w) !! P = Some (PromiseCell None [])) ∧
  quiescent (run n w) ∧
  state_of p (run n w) = Some (Fulfilled VUndefined) ∧
  ustate (run n w) = each_state g (visited items) 0 (u, Collector 0 []).
Proof.
  rewrite collect_init. cbv zeta.
  set (w := World _ _ _ _ _ _ _ _ _ _).
  destruct items as [|x items].
  - cbn. repeat split.
    + intros j Hj. by replace j with 0 by lia.
    + intros j Hj. assert (Hc : j = 0 ∨ j = 1) by lia.
      by destruct Hc as [-> | ->].
  - assert (Hlive : each_live 0 1 1 ([] ++ x :: items) (length (@nil value))
                      (visitor g) 1 w) by (by repeat split).
    destruct (each_live_run g 0 1 (x :: items) [] 1 1 w)
      as (K0 & K1 & K2 & K3 & K4); [done|done|].
    cbn [visited].
    split; [exact K0|]. split; [|done].
    intros j Hj.
    rewrite (each_other_run g 0 1 0 ltac:(done) (x :: items) [] 1 1 w);
      done.
Qed.

Lemma each_state_map (handle : value -> nat -> U -> U * value) :
  forall xs i (u : U) acc,
  each_state (map_callback handle) xs i (u, Collector (length acc) acc) =
  ((mapped handle xs i u).1,
   Collector (length acc + length xs) (acc ++ (mapped handle xs i u).2)).
Proof.
  induction xs as [|x xs IH]; intros i u acc.
  - simpl. by rewrite Nat.add_0_r, app_nil_r.
  - simpl. unfold map_callback at 2. simpl. rewrite array_set_end.
    replace (S (length acc)) with (length (acc ++ [(handle x i u).2]))
      by (rewrite length_app; simpl; lia).
    rewrite IH, length_app, <- app_assoc. simpl.
    by replace (length acc + 1 + length xs) with (length acc + S (length xs))
      by lia.
Qed.

Lemma each_state_filter (condition : value -> nat -> U -> U * value) :
  forall xs i (u : U) acc,
  exists k,
  each_state (filter_callback condition) xs i (u, Collector (length acc) acc) =
  ((filtered condition xs i u).1,
   Collector k (acc ++ (filtered condition xs i u).2)).
Proof.
  induction xs as [|x xs IH]; intros i u acc.
  - simpl. exists (length acc). by rewrite app_nil_r.
  - simpl. unfold filter_callback at 2. simpl.
    destruct (truthy (condition x i u).2).
    + rewrite array_set_end.
      replace (S (length acc)) with (length (acc ++ [x]))
        by (rewrite length_app; simpl; lia).
      destruct (IH (S i) (condition x i u).1 (acc ++ [x])) as [k ->].
      exists k. by rewrite <- app_assoc.
    + apply IH.
Qed.

(** What the callback [function() { resolve(newList); }] does to a
    pending promise. *)
Lemma resolve_newList_pending P (w : world (U * collector)) :
  promises w !! P = Some (PromiseCell None []) ->
  state_of P (resolve_newList P w) =
    Some (Fulfilled (VArr (newList (ustate w).2))) ∧
  ustate (resolve_newList P w) = ustate w ∧
  timers (resolve_newList P w) = timers w ∧
  microtasks (resolve_newList P w) = microtasks w.
Proof.
  intros HP. unfold resolve_newList, settle, state_of. rewrite HP. simpl.
  rewrite list_lookup_insert_eq by eauto using lookup_lt_Some.
  by rewrite app_nil_r.
Qed.

(** [List(items).map(handle)]: the Loop it starts calls [handle] on the
    items that [each] visits, one per turn of the event loop, the
    promise returned being pending all the while; when the promise of
    the Loop is fulfilled, [newList] holds what [handle] returned, in
    the order of the calls, and the callback attached to that promise
    fulfils the promise returned with it. *)
Theorem map_collects_results (handle : value -> nat -> U -> U * value)
    (items : list value) (u : U) (c0 : collector) :
  let '(P, l, p, w) := map items handle (init (u, c0)) in
  let n := length (visited items) in
  let r := mapped handle (visited items) 0 u in
  (forall j, j <= n -> state_of P (run j w) = None) ∧
  (forall j, j < n -> state_of p (run j w) = None) ∧
  state_of p (run n w) = Some (Fulfilled VUndefined) ∧
  let w' := resolve_newList P (run n w) in
  state_of P w' = Some (Fulfilled (VArr r.2)) ∧
  (ustate w').1 = r.1 ∧
  length r.2 = n ∧
  quiescent w'.
Proof.
  pose proof (collect_run (map_callback handle) items u c0) as H.
  unfold map. destruct (collect _ _ _) as [[[P l] p] w].
  cbv zeta in H. destruct H as (K0 & K1 & [Kt Km] & K2 & K3).
  pose proof (each_state_map handle (visited items) 0 u []) as Hs.
  cbn [length app] in Hs. rewrite Hs in K3. clear Hs.
  cbv zeta.
  destruct (resolve_newList_pending P _ (K1 _ (Nat.le_refl _)))
    as (R1 & R2 & R3 & R4).
  split; [|split; [exact K0|split; [exact K2|]]].
  { intros j Hj. unfold state_of. by rewrite (K1 j Hj). }
  rewrite R1, R2, K3. cbn [fst snd newList].
  split; [done|]. split; [done|]. split.
  - generalize 0 u. clear.
    induction (visited items) as [|x xs IH]; intros i u; [done|].
    simpl. by rewrite IH.
  - split; [by rewrite R3|by rewrite R4].
Qed.

(** [List(items).filter(condition)]: the same Loop, with [newList]
    holding, when the promise of the Loop is fulfilled, the items
    on which [condition] returned a truthy value, in the order of the
    list; the callback attached to that promise fulfils the promise
    returned with it. *)
Theorem filter_collects_matches (condition : value -> nat -> U -> U * value)
    (items : list value) (u : U) (c0 : collector) :
  let '(P, l, p, w) := filter items condition (init (u, c0)) in
  let n := length (visited items) in
  let r := filtered condition (visited items) 0 u in
  (forall j, j <= n -> state_of P (run j w) = None) ∧
  (forall j, j < n -> state_of p (run j w) = None) ∧
  state_of p (run n w) = Some (Fulfilled VUndefined) ∧
  let w' := resolve_newList P (run n w) in
  state_of P w' = Some (Fulfilled (VArr r.2)) ∧
  (ustate w').1 = r.1 ∧
  quiescent w'.
Proof.
  pose proof (collect_run (filter_callback condition) items u c0) as H.
  unfold filter. destruct (collect _ _ _) as [[[P l] p] w].
  cbv zeta in H. destruct H as (K0 & K1 & [Kt Km] & K2 & K3).
  destruct (each_state_filter condition (visited items) 0 u []) as [k Hs].
  cbn [length app] in Hs. rewrite Hs in K3. clear Hs.
  cbv zeta.
  destruct (resolve_newList_pending P _ (K1 _ (Nat.le_refl _)))
    as (R1 & R2 & R3 & R4).
  split; [|split; [exact K0|split; [exact K2|]]].
  { intros j Hj. unfold state_of. by rewrite (K1 j Hj). }
  rewrite R1, R2, K3. cbn [fst snd newList].
  split; [done|]. split; [done|].
  split; [by rewrite R3|by rewrite R4].
Qed.

End CollectRun.

End ListHandlerFacts.

(** * The theorems at concrete inputs *)

Lemma until_kills_after_n_witness :
  let w := (until (predicate never_true) (Some 3%Z) (init 0)).2 in
  (0 < 3)%Z ∧
  (forall u, truthy (never_true u).2 = false) ∧
  state_of 0 (run 2 w) = None ∧
  invocations 0 (run 2 w) = 2 ∧
  state_of 0 (run 3 w) =
    Some (Rejected (VStr "[Kill] maximum iterations reached.")) ∧
  invocations 0 (run 10 w) = 3.
Proof.
  intros w.
  destruct (until_kills_after_n never_true 3 0 eq_refl (fun _ => eq_refl)
              0 0 w eq_refl) as [H1 H2].
  split; [reflexivity|]. split; [reflexivity|].
  split; [apply (H1 2); simpl; lia|].
  split; [apply (H1 2); simpl; lia|].
  split; [apply (H2 3); simpl; lia|].
  apply (H2 10); simpl; lia.
Defined.

Lemma until_fulfils_after_k_witness :
  let w := (until (predicate third_time) (Some 5%Z) (init 0)).2 in
  truthy (third_time (after (fun u => (third_time u).1) 2 0)).2 = true ∧
  state_of 0 (run 2 w) = None ∧
  state_of 0 (run 3 w) = Some (Fulfilled VUndefined) ∧
  invocations 0 (run 10 w) = 3.
Proof.
  intros w.
  assert (Hf : forall j, j < 3 - 1 ->
            truthy (third_time (after (fun u => (third_time u).1) j 0)).2
            = false).
  { intros j Hj. destruct j as [|[|j]]; [reflexivity|reflexivity|lia]. }
  destruct (until_fulfils_after_k third_time (Some 5%Z) 3 0
              ltac:(lia) Hf eq_refl ltac:(simpl; lia) 0 0 w eq_refl)
    as [H1 H2].
  split; [reflexivity|].
  split; [apply (H1 2); lia|].
  split; [apply (H2 3); lia|].
  apply (H2 10); lia.
Defined.

Lemma if_then_else_resolves_witness :
  (yes tt).2 = VBool true ∧
  let '(x0, x2, w) :=
    If_then_else yes (fun u => (u, RetValue (VStr "A")))
                 (fun u => (u, RetValue (VStr "B"))) (init tt) in
  x2 ≠ x0 ∧
  exists X0 X2,
    proxies w !! x0 = Some X0 ∧ proxies w !! x2 = Some X2 ∧
    x_promise X2 = next X0 ∧
    forall n, 2 <= n ->
      state_of (next X0) (run n w) = Some (Fulfilled (VStr "A")) ∧
      trace (run n w) = [EvCondition; EvThen x0].
Proof.
  split; [reflexivity|].
  pose proof (if_then_else_resolves yes true tt eq_refl) as H.
  cbv zeta in H. destruct H as [_ H]. exact H.
Defined.

Lemma if_non_boolean_resolves_null_witness :
  (one tt).2 ≠ VBool true ∧ (one tt).2 ≠ VBool false ∧
  let '(x0, x2, w) := If_then_else one (returns "A") (returns "B") (init tt) in
  exists X0,
    proxies w !! x0 = Some X0 ∧
    thenHandle X0 = returns "A" ∧ elseHandle X0 = returns "B" ∧
    forall n,
      (forall e, e ∈ trace (run n w) -> e = EvCondition) ∧
      (2 <= n -> state_of (next X0) (run n w) = Some (Fulfilled VNull)).
Proof.
  assert (H1 : (one tt).2 ≠ VBool true) by (simpl; discriminate).
  assert (H2 : (one tt).2 ≠ VBool false) by (simpl; discriminate).
  split; [exact H1|]. split; [exact H2|].
  exact (if_non_boolean_resolves_null one (returns "A") (returns "B") tt H1 H2).
Defined.

Lemma each_visits_every_item_witness :
  let w := (each [VStr "a"; VStr "b"] (visitor count_call) (init 0)).2 in
  [VStr "a"; VStr "b"] ≠ [] ∧
  state_of 0 (run 1 w) = None ∧
  state_of 0 (run 2 w) = Some (Fulfilled VUndefined) ∧
  ustate (run 5 w) = 2 ∧
  trace (run 5 w) =
    [EvHandle 0; EvItem 0 (VStr "a") 0; EvHandle 0; EvItem 0 (VStr "b") 1].
Proof.
  intros w.
  assert (Hne : [VStr "a"; VStr "b"] ≠ []) by discriminate.
  pose proof (each_visits_every_item count_call [VStr "a"; VStr "b"] 0 Hne)
    as H.
  change (each [VStr "a"; VStr "b"] (visitor count_call) (init 0))
    with (0, 0, w) in H.
  cbv iota beta in H. destruct H as [H1 H2].
  split; [exact Hne|].
  split; [apply (H1 1); simpl; lia|].
  split; [apply (H2 2); simpl; lia|].
  split; apply (H2 5); simpl; lia.
Defined.

Lemma find_first_match_witness :
  let w := (find [VNum 1; VNum 2; VNum 2] is_two (init 0)).2 in
  [VNum 1; VNum 2; VNum 2] ≠ [] ∧
  state_of 0 (run 2 w) = Some (Fulfilled (found (VNum 2) 1)) ∧
  state_of 0 (run 9 w) = Some (Fulfilled (found (VNum 2) 1)).
Proof.
  intros w.
  assert (Hne : [VNum 1; VNum 2; VNum 2] ≠ []) by discriminate.
  pose proof (find_first_match is_two [VNum 1; VNum 2; VNum 2] 0 Hne) as H.
  assert (E : find [VNum 1; VNum 2; VNum 2] is_two (init 0) = (0, 0, w))
    by (vm_compute; reflexivity).
  rewrite E in H.
  change (first_match is_two [VNum 1; VNum 2; VNum 2] 0 0)
    with (Some (VNum 2, 1)) in H.
  cbv iota beta in H.
  split; [exact Hne|].
  split; [apply (H 2)|apply (H 9)]; simpl; lia.
Defined.

Lemma falsy_handle_never_stops_witness :
  let w := (until (UserHandle done_and_go_on) (Some 0%Z) (init 0)).2 in
  (forall u, truthy (h_return (done_and_go_on u)) = false) ∧
  state_of 0 (run 0 w) = None ∧
  state_of 0 (run 1 w) = Some (Fulfilled VUndefined) ∧
  invocations 0 (run 7 w) = 7 ∧
  ustate (run 7 w) = 7.
Proof.
  intros w.
  assert (Hf : forall u, truthy (h_return (done_and_go_on u)) = false)
    by reflexivity.
  pose proof (falsy_handle_never_stops done_and_go_on (Some 0%Z) 0 Hf
                ltac:(simpl; lia)) as H.
  assert (E : until (UserHandle done_and_go_on) (Some 0%Z) (init 0) =
              (0, 0, w)) by reflexivity.
  rewrite E in H. cbv iota beta in H.
  split; [exact Hf|].
  split; [apply (H 0)|]. split; [apply (H 1)|].
  split; apply (H 7).
Defined.

Lemma until_keeps_first_settlement_witness :
  let w := (until (UserHandle cancel_then_stop) None (init 0)).2 in
  truthy (h_return (cancel_then_stop (iter_state cancel_then_stop 2 0)))
    = true ∧
  state_of 0 (run 1 w) = None ∧
  state_of 0 (run 2 w) = Some (Rejected (VStr "[Cancel] enough")) ∧
  invocations 0 (run 2 w) = 2 ∧
  state_of 0 (run 9 w) = Some (Rejected (VStr "[Cancel] enough")) ∧
  invocations 0 (run 9 w) = 3.
Proof.
  intros w.
  assert (Hf : forall j, j < 3 - 1 ->
            truthy (h_return (cancel_then_stop
                                (iter_state cancel_then_stop j 0))) = false).
  { intros j Hj. destruct j as [|[|j]]; [reflexivity|reflexivity|lia]. }
  pose proof (until_keeps_first_settlement cancel_then_stop None 3 0
                ltac:(lia) Hf eq_refl I) as H.
  assert (E : until (UserHandle cancel_then_stop) None (init 0) = (0, 0, w))
    by reflexivity.
  rewrite E in H. cbv iota beta in H. destruct H as [H1 H2].
  split; [reflexivity|].
  split; [apply (H1 1); lia|].
  split; [apply (H1 2); lia|].
  split; [apply (H1 2); lia|].
  split; apply (H2 9); lia.
Defined.

Lemma if_adopts_returned_proxy_witness :
  (forall u, (yes u).2 = VBool true) ∧
  let '(x, y, w) := If_returning_proxy yes yes (says "A") (init tt) in
  exists X Y,
    proxies w !! x = Some X ∧ proxies w !! y = Some Y ∧
    forall n, 5 <= n ->
      state_of (x_promise Y) (run n w) = Some (Fulfilled (VBool true)) ∧
      state_of (next Y) (run n w) = Some (Fulfilled (VStr "A")) ∧
      state_of (next X) (run n w) = Some (Fulfilled (VBool true)) ∧
      EvThen x ∈ trace (run n w) ∧ EvElse x ∉ trace (run n w).
Proof.
  assert (Hy : forall u, (yes u).2 = VBool true) by reflexivity.
  split; [exact Hy|].
  exact (if_adopts_returned_proxy yes yes (says "A") tt Hy).
Defined.

Lemma start_again_before_exec_throws_witness :
  let st := ThreadCalls.state_after
              (Thread.start (Thread.new_Thread Thread.AsyncUtils
                                               ThreadCalls.echo)) in
  Thread.worker st = Some 0 ∧ Thread.deferred st = None ∧
  exists st',
    Thread.start st =
      Thread.Throw (Thread.TypeError "this.deferred is null") st' ∧
    Thread.worker st' = None ∧ Thread.url st' = None ∧
    length (Thread.workers st') = 1 ∧
    Thread.running <$> Thread.workers st' !! 0 = Some false ∧
    Thread.promises st' = [].
Proof.
  intros st. split; [reflexivity|]. split; [reflexivity|].
  exact (ThreadCallsFacts.start_again_before_exec_throws st 0
           eq_refl eq_refl).
Defined.
